(** * Tuify: the playback and navigation controller of [music_tui.py]

    A shallow embedding of [AudioPlayer] and of the navigation part of
    [MusicTUI], with the properties of the controller stated over it.

    Text is a Rocq [string]; every character is read as the code point of
    the same number (0..255), so that [str.lower], [str.strip] and
    [str.splitlines] are the restrictions of Python's to that range. *)

From Stdlib Require Import ZArith Lia Bool Ascii String List DecimalString.
From stdpp Require Import base list strings gmap.
Import ListNotations.

Local Open Scope string_scope.
Local Open Scope list_scope.

(** ** Python's [str] primitives used by the program *)

Module Py.

(** [c.lower()] for one code point below 256. *)
Definition lower_char (c : ascii) : ascii :=
  let n := nat_of_ascii c in
  if ((65 <=? n) && (n <=? 90))%nat then ascii_of_nat (n + 32)
  else if ((192 <=? n) && (n <=? 222) && negb (n =? 215))%nat
       then ascii_of_nat (n + 32)
       else c.

(** [s.lower()] *)
Fixpoint lower (s : string) : string :=
  match s with
  | EmptyString => EmptyString
  | String c s' => String (lower_char c) (lower s')
  end.

(** [c.isspace()] for one code point below 256. *)
Definition isspace (c : ascii) : bool :=
  let n := nat_of_ascii c in
  (((9 <=? n) && (n <=? 13)) || ((28 <=? n) && (n <=? 32))
   || (n =? 133) || (n =? 160))%nat.

(** [s.lstrip()] *)
Fixpoint lstrip (s : string) : string :=
  match s with
  | EmptyString => EmptyString
  | String c s' => if isspace c then lstrip s' else s
  end.

(** [s.rstrip()] *)
Fixpoint rstrip (s : string) : string :=
  match s with
  | EmptyString => EmptyString
  | String c s' =>
      match rstrip s' with
      | EmptyString => if isspace c then EmptyString else String c EmptyString
      | r => String c r
      end
  end.

(** [s.strip()] *)
Definition strip (s : string) : string := lstrip (rstrip s).

(** [s.startswith(p)] *)
Fixpoint startswith (p s : string) : bool :=
  match p, s with
  | EmptyString, _ => true
  | String _ _, EmptyString => false
  | String a p', String b s' => if Ascii.eqb a b then startswith p' s' else false
  end.

(** [sep in s] *)
Fixpoint contains (sep s : string) : bool :=
  startswith sep s
  || match s with
     | EmptyString => false
     | String _ s' => contains sep s'
     end.

(** [s.split(sep)] for a non-empty [sep]: the pieces between the
    occurrences of [sep] found from left to right, none overlapping.
    [skip] counts the characters of a found occurrence still to pass. *)
Fixpoint split_go (sep : string) (skip : nat) (s : string) : list string :=
  match s with
  | EmptyString => [EmptyString]
  | String c s' =>
      match skip with
      | S k => split_go sep k s'
      | O =>
          if startswith sep s
          then EmptyString :: split_go sep (String.length sep - 1) s'
          else match split_go sep 0 s' with
               | piece :: pieces => String c piece :: pieces
               | [] => [String c EmptyString]
               end
      end
  end.

Definition split (sep s : string) : list string := split_go sep 0 s.

(** [l[0]] on a list of strings ([split] never returns an empty list). *)
Definition first (l : list string) : string := hd EmptyString l.

(** The line boundaries of [str.splitlines] below code point 256:
    LF, VT, FF, CR, FS, GS, RS and NEL. *)
Definition is_linebreak (c : ascii) : bool :=
  let n := nat_of_ascii c in
  (((10 <=? n) && (n <=? 13)) || ((28 <=? n) && (n <=? 30)) || (n =? 133))%nat.

(** [s.splitlines()]: CR LF is one boundary ([after_cr] is set right
    after a CR), and a boundary at the very end opens no further line. *)
Fixpoint splitlines_go (after_cr : bool) (s : string) : list string :=
  match s with
  | EmptyString => []
  | String c s' =>
      if after_cr && Ascii.eqb c "010"%char then splitlines_go false s'
      else if is_linebreak c
      then EmptyString :: splitlines_go (Ascii.eqb c "013"%char) s'
      else match splitlines_go false s' with
           | line :: lines => String c line :: lines
           | [] => [String c EmptyString]
           end
  end.

Definition splitlines (s : string) : list string := splitlines_go false s.

End Py.

(** ** Data model *)

(** A track dictionary: ['track'], ['artist'] and, once known, ['video_id']. *)
Record song := Song {
  track : string;
  artist : string;
  video_id : option string
}.

(** Track dictionaries are shared objects: the entry of [results] that is
    being played is the very dictionary held in [current_song], and
    [play_selection] attaches ['video_id'] to it in place.  They live in a
    store and are named by their position in it. *)
Abbreviation loc := nat (only parsing).
Abbreviation store := (list song) (only parsing).

Definition deref (h : store) (l : loc) : song :=
  default (Song "" "" None) (h !! l).

(** Storing freshly built dictionaries: the new store and their names. *)
Definition alloc (h : store) (new : list song) : store * list loc :=
  (h ++ new, seq (length h) (length new)).

(** [self.mode], only ever ["SEARCH"] or ["RADIO"]. *)
Inductive Mode := SEARCH | RADIO.

(** ** The outside world

    What the external collaborators answer, by request: the iTunes search
    (the JSON entries of ['results'], or the text of the exception), yt-dlp
    listing a mix and yt-dlp resolving a query (the decoded output, [None]
    for any exception), and what becomes of a spawned mpv. *)

Record itunes_item := ItunesItem {
  trackName : option string;
  artistName : option string
}.

(** An entry's ['trackName'] and ['artistName'] are texts when present.
    [HttpFailed] stands for any exception of the request, with [str(e)]. *)
Inductive http_reply :=
| HttpFailed (msg : string)
| HttpJson (items : list itunes_item).

Inductive spawn_outcome :=
| SpawnMissing   (* FileNotFoundError *)
| SpawnDied      (* poll() is not None after the grace delay *)
| SpawnAlive.

Record world := World {
  itunes_get : string -> http_reply;
  ytdlp_mix : string -> option string;
  ytdlp_search : string -> option string;
  mpv_spawn : string -> spawn_outcome
}.

(** ** Provider adapters *)

(** The dedup key of [fetch_itunes_results]: [f"{t.lower()}{a.lower()}"]. *)
Definition itunes_key (t a : string) : string := Py.lower t +:+ Py.lower a.

(** One turn of the loop over [data.get('results', [])]. *)
Definition itunes_step (acc : list song * gset string) (item : itunes_item)
  : list song * gset string :=
  let '(clean_results, seen) := acc in
  let t := default "Unknown" (trackName item) in
  let a := default "Unknown" (artistName item) in
  let key := itunes_key t a in
  if bool_decide (key ∈ seen) then acc
  else (clean_results ++ [Song t a None], {[key]} ∪ seen).

Definition itunes_dedup (items : list itunes_item) : list song :=
  fst (fold_left itunes_step items ([], ∅)).

Definition fetch_itunes_results (w : world) (query : string)
  : list song * option string :=
  match itunes_get w query with
  | HttpFailed msg => ([], Some msg)
  | HttpJson items => (itunes_dedup items, None)
  end.

Definition mix_url (video_id : string) : string :=
  "https://www.youtube.com/watch?v=" +:+ video_id +:+ "&list=RD" +:+ video_id.

(** One turn of the loop over [output.splitlines()]. *)
Definition mix_step (video_id : string) (acc : list song * gset string)
  (line : string) : list song * gset string :=
  let '(new_results, seen_ids) := acc in
  if negb (Py.contains ":::" line) then acc
  else
    let parts := Py.split ":::" line in
    if (length parts <? 3)%nat then acc
    else match parts with
         | vid_id :: title :: uploader :: _ =>
             if String.eqb vid_id video_id then acc
             else if bool_decide (vid_id ∈ seen_ids) then acc
             else (new_results ++ [Song title uploader (Some vid_id)],
                   {[vid_id]} ∪ seen_ids)
         | _ => acc
         end.

Definition parse_mix (video_id output : string) : list song :=
  fst (fold_left (mix_step video_id) (Py.splitlines output) ([], ∅)).

Definition fetch_youtube_mix (w : world) (video_id : string) : list song :=
  match ytdlp_mix w (mix_url video_id) with
  | Some output => parse_mix video_id output
  | None => []
  end.

Definition get_youtube_url (w : world) (query : string) : option string :=
  match ytdlp_search w ("ytsearch1:" +:+ query +:+ " audio") with
  | Some output => Some (Py.strip output)
  | None => None
  end.

(** [[a-zA-Z0-9_-]] *)
Definition is_id_char (c : ascii) : bool :=
  let n := nat_of_ascii c in
  (((97 <=? n) && (n <=? 122)) || ((65 <=? n) && (n <=? 90))
   || ((48 <=? n) && (n <=? 57)) || (n =? 95) || (n =? 45))%nat.

(** [n] identifier characters at the head of [s]. *)
Fixpoint take_id (n : nat) (s : string) : option string :=
  match n with
  | O => Some EmptyString
  | S k =>
      match s with
      | String c s' =>
          if is_id_char c
          then match take_id k s' with
               | Some r => Some (String c r)
               | None => None
               end
          else None
      | EmptyString => None
      end
  end.

Fixpoint drop_chars (n : nat) (s : string) : string :=
  match n, s with
  | S k, String _ s' => drop_chars k s'
  | _, _ => s
  end.

(** [re.search(lit + r'([a-zA-Z0-9_-]{11})', s)]: the group of the
    leftmost match. *)
Fixpoint search_id (lit s : string) : option string :=
  match (if Py.startswith lit s
         then take_id 11 (drop_chars (String.length lit) s) else None) with
  | Some id => Some id
  | None =>
      match s with
      | String _ s' => search_id lit s'
      | EmptyString => None
      end
  end.

Definition extract_video_id (url : string) : option string :=
  match search_id "v=" url with
  | Some id => Some id
  | None => search_id "youtu.be/" url
  end.

(** ** The artist cleaner *)

Definition separators : list string :=
  ["&"; "feat."; "Feat."; "ft."; ","; " x "].

(** One turn of the loop over [separators]. *)
Definition clean_step (cleaned sep : string) : string :=
  if Py.contains sep cleaned then Py.first (Py.split sep cleaned) else cleaned.

Definition clean_artist_name (artist_raw : string) : string :=
  Py.strip (fold_left clean_step separators artist_raw).

(** The text of [s] before the first place where one of [seps] begins
    (all of [s] when none occurs): what "cut at the first separator"
    means, read off the input from left to right. *)
Fixpoint before_any (seps : list string) (s : string) : string :=
  match s with
  | EmptyString => EmptyString
  | String c s' =>
      if existsb (fun sep => Py.startswith sep s) seps then EmptyString
      else String c (before_any seps s')
  end.

(** One of [u], [v] begins the other. *)
Definition agree (u v : string) : bool :=
  Py.startswith u v || Py.startswith v u.

(** Some non-empty end of [u] agrees with [v]. *)
Fixpoint tails_agree (u v : string) : bool :=
  match u with
  | EmptyString => false
  | String _ u' => agree u v || tails_agree u' v
  end.

(** An occurrence of [u] can run into a later beginning of [v]. *)
Definition runs_into (v u : string) : bool :=
  match u with
  | EmptyString => false
  | String _ u' => tails_agree u' v
  end.

(** ** AudioPlayer *)

(** What [self.process.poll()] reports of the owned child. *)
Inductive child := Running | Exited.

(** The fields of [AudioPlayer].  The now-playing file and the control
    socket are written but never read back, and are left out. *)
Record AudioPlayer := Player {
  process : option child;
  current_song : option loc;
  is_playing : bool;
  is_paused : bool;
  manually_stopped : bool
}.

Module AudioPlayer.

(** [__init__] *)
Definition init : AudioPlayer := Player None None false false false.

(** [stop]: the child, if any, is terminated and the handle dropped. *)
Definition stop (p : AudioPlayer) : AudioPlayer :=
  Player None None false false true.

(** [play(youtube_url, song_info)] *)
Definition play (w : world) (youtube_url : string) (song_info : loc)
  (p : AudioPlayer) : AudioPlayer :=
  let p := stop p in
  let p := Player (process p) (Some song_info) true false false in
  match mpv_spawn w youtube_url with
  | SpawnAlive =>
      Player (Some Running) (current_song p) (is_playing p) (is_paused p)
        (manually_stopped p)
  | SpawnDied =>
      Player None (current_song p) false (is_paused p) (manually_stopped p)
  | SpawnMissing =>
      Player (process p) (current_song p) false (is_paused p)
        (manually_stopped p)
  end.

(** [toggle_pause] *)
Definition toggle_pause (p : AudioPlayer) : AudioPlayer :=
  if is_playing p
  then Player (process p) (current_song p) (is_playing p)
         (negb (is_paused p)) (manually_stopped p)
  else p.

(** [check_status]: the player afterwards and the value returned. *)
Definition check_status (p : AudioPlayer) : AudioPlayer * bool :=
  match process p with
  | Some Exited =>
      (Player None (current_song p) false (is_paused p) (manually_stopped p),
       negb (manually_stopped p))
  | Some Running => (p, false)
  | None => (p, false)
  end.

(** The owned child ends by itself; nothing of the player is written. *)
Definition child_exits (p : AudioPlayer) : AudioPlayer :=
  match process p with
  | Some Running =>
      Player (Some Exited) (current_song p) (is_playing p) (is_paused p)
        (manually_stopped p)
  | _ => p
  end.

(** What happens to a player, one call or one exit at a time. *)
Inductive event :=
| EPlay (w : world) (youtube_url : string) (song_info : loc)
| EStop
| EExit
| EPoll.

(** One event; a poll also yields what [check_status] returned. *)
Definition step (p : AudioPlayer) (e : event) : AudioPlayer * option bool :=
  match e with
  | EPlay w url l => (play w url l p, None)
  | EStop => (stop p, None)
  | EExit => (child_exits p, None)
  | EPoll => let '(p', b) := check_status p in (p', Some b)
  end.

(** A run: the player at the end and the polls' answers, in order. *)
Fixpoint run (p : AudioPlayer) (es : list event) : AudioPlayer * list bool :=
  match es with
  | [] => (p, [])
  | e :: es' =>
      let '(p', r) := step p e in
      let '(p'', rs) := run p' es' in
      (p'', match r with Some b => b :: rs | None => rs end)
  end.

Definition is_exit (e : event) : bool :=
  match e with EExit => true | _ => false end.

Definition is_play (e : event) : bool :=
  match e with EPlay _ _ _ => true | _ => false end.

(** The exits of a run that end a running owned child. *)
Fixpoint natural_exits (p : AudioPlayer) (es : list event) : nat :=
  match es with
  | [] => 0
  | e :: es' =>
      (match e, process p with
       | EExit, Some Running => 1
       | _, _ => 0
       end + natural_exits (fst (step p e)) es')%nat
  end.

(** How many polls answered [True]. *)
Fixpoint count_true (l : list bool) : nat :=
  match l with
  | [] => 0
  | b :: l' => ((if b then 1 else 0) + count_true l')%nat
  end.

(** An exit seen by nobody yet. *)
Definition unseen_exit (p : AudioPlayer) : nat :=
  match process p with
  | Some Exited => 1
  | _ => 0
  end.

End AudioPlayer.

(** ** MusicTUI *)

Record MusicTUI := TUI {
  player : AudioPlayer;
  heap : store;
  results : list loc;
  selected_index : Z;
  search_term : string;
  status_message : string;
  loading : bool;
  autoplay : bool;
  mode : Mode
}.

(** A background thread started by the controller and not yet run:
    [_bg] of [play_selection] on [selected], or [_bg_smart] of
    [start_smart_radio] on [prev_song]. *)
Inductive thread :=
| BgPlay (selected : loc)
| BgSmart (prev_song : loc).

(** A call made to a provider by [_bg_smart], for the order of attempts. *)
Inductive attempt :=
| AskedMix (video_id : string)
| AskedArtist (query : string).

Module MusicTUI.

Definition set_player (p : AudioPlayer) (st : MusicTUI) : MusicTUI :=
  TUI p (heap st) (results st) (selected_index st) (search_term st)
    (status_message st) (loading st) (autoplay st) (mode st).
Definition set_heap (h : store) (st : MusicTUI) : MusicTUI :=
  TUI (player st) h (results st) (selected_index st) (search_term st)
    (status_message st) (loading st) (autoplay st) (mode st).
Definition set_results (r : list loc) (st : MusicTUI) : MusicTUI :=
  TUI (player st) (heap st) r (selected_index st) (search_term st)
    (status_message st) (loading st) (autoplay st) (mode st).
Definition set_selected_index (i : Z) (st : MusicTUI) : MusicTUI :=
  TUI (player st) (heap st) (results st) i (search_term st)
    (status_message st) (loading st) (autoplay st) (mode st).
Definition set_search_term (t : string) (st : MusicTUI) : MusicTUI :=
  TUI (player st) (heap st) (results st) (selected_index st) t
    (status_message st) (loading st) (autoplay st) (mode st).
Definition set_status_message (m : string) (st : MusicTUI) : MusicTUI :=
  TUI (player st) (heap st) (results st) (selected_index st) (search_term st)
    m (loading st) (autoplay st) (mode st).
Definition set_loading (b : bool) (st : MusicTUI) : MusicTUI :=
  TUI (player st) (heap st) (results st) (selected_index st) (search_term st)
    (status_message st) b (autoplay st) (mode st).
Definition set_autoplay (b : bool) (st : MusicTUI) : MusicTUI :=
  TUI (player st) (heap st) (results st) (selected_index st) (search_term st)
    (status_message st) (loading st) b (mode st).
Definition set_mode (m : Mode) (st : MusicTUI) : MusicTUI :=
  TUI (player st) (heap st) (results st) (selected_index st) (search_term st)
    (status_message st) (loading st) (autoplay st) m.

(** [self.results = new]: the fresh dictionaries enter the store. *)
Definition assign_results (new : list song) (st : MusicTUI) : MusicTUI :=
  let '(h, ls) := alloc (heap st) new in
  set_results ls (set_heap h st).

(** The tracks the result list shows. *)
Definition shown (st : MusicTUI) : list song :=
  map (deref (heap st)) (results st).

(** [__init__] *)
Definition init : MusicTUI :=
  TUI AudioPlayer.init [] [] 0 "" "Press 's' to search." false true SEARCH.

(** [l[i]] with Python's indexing.  [None] stands for IndexError, which
    takes a cursor below [-len(l)]; the cursor of a running program is
    never negative ([cursor_in_range] below), and a caller that meets
    [None] starts nothing. *)
Definition getitem (l : list loc) (i : Z) : option loc :=
  if (0 <=? i)%Z then l !! Z.to_nat i
  else if (- Z.of_nat (length l) <=? i)%Z
       then l !! Z.to_nat (Z.of_nat (length l) + i)
       else None.

(** Truth value of an optional text ([None] and [""] are false). *)
Definition truthy (o : option string) : bool :=
  match o with
  | Some (String _ _) => true
  | _ => false
  end.

(** [str(n)] for a length. *)
Definition str_of_nat (n : nat) : string :=
  NilEmpty.string_of_uint (Nat.to_uint n).

(** [play_selection(song_item)]: up to the start of the thread. *)
Definition play_selection (song_item : option loc) (st : MusicTUI)
  : MusicTUI * list thread :=
  let launch (selected : loc) :=
    (set_status_message
       ("Fetching: " +:+ track (deref (heap st) selected) +:+ "...")
       (set_loading true st),
     [BgPlay selected]) in
  match song_item with
  | Some selected => launch selected
  | None =>
      match results st with
      | [] => (st, [])
      | _ :: _ =>
          if (Z.of_nat (length (results st)) <=? selected_index st)%Z
          then (st, [])
          else match getitem (results st) (selected_index st) with
               | Some selected => launch selected
               | None => (st, [])
               end
      end
  end.

(** [start_smart_radio(prev_song)]: up to the start of the thread. *)
Definition start_smart_radio (prev_song : loc) (st : MusicTUI)
  : MusicTUI * list thread :=
  (set_status_message "Generating Smart Radio..." (set_loading true st),
   [BgSmart prev_song]).

(** [handle_smart_navigation(explicit_prev_song)] *)
Definition handle_smart_navigation (explicit_prev_song : option loc)
  (st : MusicTUI) : MusicTUI * list thread :=
  let prev :=
    match explicit_prev_song with
    | Some l => Some l
    | None => current_song (player st)
    end in
  match prev with
  | None => (st, [])
  | Some prev_song =>
      match mode st with
      | SEARCH => start_smart_radio prev_song st
      | RADIO =>
          if (selected_index st <? Z.of_nat (length (results st)) - 1)%Z
          then play_selection None
                 (set_selected_index (selected_index st + 1) st)
          else start_smart_radio prev_song st
      end
  end.

(** [selected['video_id'] = vid_id] *)
Definition attach_video_id (selected : loc) (vid_id : string)
  (st : MusicTUI) : MusicTUI :=
  let s := deref (heap st) selected in
  set_heap (<[selected := Song (track s) (artist s) (Some vid_id)]> (heap st))
    st.

(** [_bg] of [play_selection], run in one piece. *)
Definition bg_play (w : world) (selected : loc) (st : MusicTUI)
  : MusicTUI * list thread :=
  let s := deref (heap st) selected in
  let '(url, st) :=
    match video_id s with
    | Some vid => (Some ("https://www.youtube.com/watch?v=" +:+ vid), st)
    | None =>
        let query := track s +:+ " " +:+ artist s +:+ " audio" in
        let url := get_youtube_url w query in
        if truthy url
        then match extract_video_id (default "" url) with
             | Some vid_id =>
                 if truthy (Some vid_id)
                 then (url, attach_video_id selected vid_id st)
                 else (url, st)
             | None => (url, st)
             end
        else (url, st)
    end in
  if truthy url then
    let st := set_loading false st in
    let st :=
      set_player (AudioPlayer.play w (default "" url) selected (player st))
        st in
    if negb (is_playing (player st)) && autoplay st
    then handle_smart_navigation (Some selected)
           (set_status_message "Playback failed. Skipping..." st)
    else (st, [])
  else
    let st :=
      set_status_message "Song Unavailable. Skipping..."
        (set_loading false st) in
    if autoplay st
    then handle_smart_navigation (Some selected) st
    else (st, []).

(** [t.lower().split('(')[0]] *)
Definition clean_title (t : string) : string :=
  Py.first (Py.split "(" (Py.lower t)).

(** The [enumerate] loop of the artist fallback: the index at [break]. *)
Fixpoint first_other (last_clean : string) (i : nat) (l : list song)
  : option nat :=
  match l with
  | [] => None
  | s :: l' =>
      if negb (String.eqb (clean_title (track s)) last_clean)
      then Some i
      else first_other last_clean (S i) l'
  end.

Definition pick_next_idx (prev_track : string) (l : list song) : Z :=
  let last_clean := clean_title prev_track in
  match first_other last_clean 0 l with
  | Some i => Z.of_nat i
  | None => 0
  end.

(** First stage of [_bg_smart]: the recommendation fetch.  Yields the
    state, [mix_found] and the provider calls made. *)
Definition smart_by_id (w : world) (prev_song : loc) (st : MusicTUI)
  : MusicTUI * bool * list attempt :=
  match video_id (deref (heap st) prev_song) with
  | Some vid =>
      let st := set_status_message "Fetching YouTube Recommendations..." st in
      let mix_results := fetch_youtube_mix w vid in
      match mix_results with
      | _ :: _ =>
          (set_selected_index 0
             (set_search_term "Smart Mix"
                (set_mode RADIO (assign_results mix_results st))),
           true, [AskedMix vid])
      | [] => (st, false, [AskedMix vid])
      end
  | None => (st, false, [])
  end.

(** Second stage of [_bg_smart]: the artist fallback. *)
Definition smart_by_artist (w : world) (prev_song : loc) (st : MusicTUI)
  : MusicTUI * bool * list attempt :=
  let clean_art := clean_artist_name (artist (deref (heap st) prev_song)) in
  let st :=
    set_status_message ("Falling back to Artist: " +:+ clean_art +:+ "...")
      st in
  let '(res, _) := fetch_itunes_results w clean_art in
  match res with
  | _ :: _ =>
      let st :=
        set_search_term ("Artist: " +:+ clean_art)
          (set_mode RADIO (assign_results res st)) in
      let next_idx :=
        pick_next_idx (track (deref (heap st) prev_song)) (shown st) in
      (set_selected_index next_idx st, true, [AskedArtist clean_art])
  | [] => (st, false, [AskedArtist clean_art])
  end.

(** [_bg_smart] of [start_smart_radio], run in one piece. *)
Definition bg_smart (w : world) (prev_song : loc) (st : MusicTUI)
  : MusicTUI * list thread * list attempt :=
  let '(st, mix_found, asked1) := smart_by_id w prev_song st in
  let '(st, mix_found, asked2) :=
    if negb mix_found then smart_by_artist w prev_song st
    else (st, mix_found, []) in
  let st := set_loading false st in
  if mix_found
  then let '(st, ts) := play_selection None st in (st, ts, asked1 ++ asked2)
  else (set_status_message "Could not generate radio." st, [],
        asked1 ++ asked2).

(** [perform_search]; [typed] is what [custom_input] returned. *)
Definition perform_search (w : world) (typed : option string)
  (st : MusicTUI) : MusicTUI :=
  if negb (truthy typed) then st
  else
    let query := default "" typed in
    let st :=
      set_status_message "Searching iTunes..."
        (set_mode SEARCH (set_loading true (set_search_term query st))) in
    let '(res, err) := fetch_itunes_results w query in
    let st := set_loading false st in
    if truthy err then set_status_message "Network Error." st
    else match res with
         | [] => set_results [] (set_status_message "No songs found." st)
         | _ :: _ =>
             set_status_message
               ("Found " +:+ str_of_nat (length res) +:+ " songs.")
               (set_selected_index 0 (assign_results res st))
         end.

(** [skip_next] *)
Definition skip_next (st : MusicTUI) : MusicTUI * list thread :=
  match current_song (player st) with
  | Some last_known_song =>
      handle_smart_navigation (Some last_known_song)
        (set_player (AudioPlayer.stop (player st)) st)
  | None => play_selection None st
  end.

(** [skip_prev] *)
Definition skip_prev (st : MusicTUI) : MusicTUI * list thread :=
  if (0 <? selected_index st)%Z
  then play_selection None (set_selected_index (selected_index st - 1) st)
  else (set_status_message "Start of playlist." st, []).

(** What [getch] brought, with the text typed at the search prompt. *)
Inductive key :=
| KeyErr | KeyInterrupt | KeyQuit | KeyUp | KeyDown
| KeySearch (typed : option string)
| KeyEnter | KeySpace | KeyNext | KeyPrev | KeyStop | KeyAutoplay
| KeyOther.

(** The dispatch on the key in [run]; [false] when the loop breaks. *)
Definition on_key (w : world) (k : key) (st : MusicTUI)
  : MusicTUI * list thread * bool :=
  match k with
  | KeyErr | KeyOther => (st, [], true)
  | KeyInterrupt => (st, [], false)
  | KeyQuit => (set_player (AudioPlayer.stop (player st)) st, [], false)
  | KeyUp =>
      (if (0 <? selected_index st)%Z
       then set_selected_index (selected_index st - 1) st else st, [], true)
  | KeyDown =>
      (if (selected_index st <? Z.of_nat (length (results st)) - 1)%Z
       then set_selected_index (selected_index st + 1) st else st, [], true)
  | KeySearch typed =>
      (perform_search w typed (set_player (AudioPlayer.stop (player st)) st),
       [], true)
  | KeyEnter => (play_selection None st, true)
  | KeySpace =>
      (set_player (AudioPlayer.toggle_pause (player st)) st, [], true)
  | KeyNext => (skip_next st, true)
  | KeyPrev => (skip_prev st, true)
  | KeyStop => (set_player (AudioPlayer.stop (player st)) st, [], true)
  | KeyAutoplay => (set_autoplay (negb (autoplay st)) st, [], true)
  end.

(** One turn of the loop of [run]. *)
Definition loop_turn (w : world) (k : key) (st : MusicTUI)
  : MusicTUI * list thread * bool :=
  let '(p, ended) := AudioPlayer.check_status (player st) in
  let st := set_player p st in
  let '(st, ts1) :=
    if ended && autoplay st then handle_smart_navigation None st
    else (st, []) in
  let '(st, ts2, go_on) := on_key w k st in
  (st, ts1 ++ ts2, go_on).

(** The cursor is a position of the list, when the list has one. *)
Definition cursor_ok (st : MusicTUI) : Prop :=
  (0 <= selected_index st)%Z /\
  (results st <> [] ->
   (selected_index st < Z.of_nat (length (results st)))%Z).

End MusicTUI.

(** ** The program and its threads

    The foreground loop, the owned child and the background threads, one
    happening at a time; a thread body runs in one piece.  The waits of
    the code ([time.sleep] in [stop], in [play] and in the loop of [run])
    take no time here, so the loop does not poll while a thread body is
    under way: what is proved of reachable states is proved of the states
    between happenings, not of the moments within one. *)

Record system := Sys {
  tui : MusicTUI;
  threads : list thread;
  looping : bool
}.

Inductive happening :=
| Turn (k : MusicTUI.key)     (* one turn of the loop of [run] *)
| ChildExit                   (* mpv ends by itself *)
| Scheduled (i : nat).        (* the [i]-th waiting thread runs *)

Definition boot : system := Sys MusicTUI.init [] true.

Definition sys_step (w : world) (ev : happening) (s : system) : system :=
  if negb (looping s) then s
  else
    match ev with
    | Turn k =>
        let '(st, ts, go_on) := MusicTUI.loop_turn w k (tui s) in
        Sys st (threads s ++ ts) go_on
    | ChildExit =>
        Sys (MusicTUI.set_player (AudioPlayer.child_exits (player (tui s)))
               (tui s))
          (threads s) true
    | Scheduled i =>
        match threads s !! i with
        | Some (BgPlay selected) =>
            let '(st, ts) := MusicTUI.bg_play w selected (tui s) in
            Sys st (delete i (threads s) ++ ts) true
        | Some (BgSmart prev_song) =>
            let '(st, ts, _) := MusicTUI.bg_smart w prev_song (tui s) in
            Sys st (delete i (threads s) ++ ts) true
        | None => s
        end
    end.

(** Each happening meets the world as it is at that moment. *)
Fixpoint sys_run (s : system) (evs : list (world * happening)) : system :=
  match evs with
  | [] => s
  | (w, ev) :: evs' => sys_run (sys_step w ev s) evs'
  end.

Inductive reachable : system -> Prop :=
| reach_boot : reachable boot
| reach_step w ev s : reachable s -> reachable (sys_step w ev s).

(** ** A sample world, for running the model *)

Module Demo.

Definition nl : string := String "010" EmptyString.

Definition itunes (query : string) : http_reply :=
  if String.eqb query "Daft Punk"
  then HttpJson [ItunesItem (Some "One More Time") (Some "Daft Punk");
                 ItunesItem (Some "One More Time (Radio Edit)")
                   (Some "Daft Punk");
                 ItunesItem (Some "Around the World") (Some "Daft Punk");
                 ItunesItem (Some "one more time") (Some "DAFT PUNK")]
  else if String.eqb query "offline" then HttpFailed "Connection timed out"
  else HttpJson [].

Definition mix (url : string) : option string :=
  if String.eqb url (mix_url "AAAAAAAAAAA")
  then Some ("AAAAAAAAAAA:::One More Time:::Daft Punk" +:+ nl +:+
             "BBBBBBBBBBB:::Aerodynamic:::Daft Punk" +:+ nl +:+
             "CCCCCCCCCCC:::Digital Love:::Daft Punk" +:+ nl +:+
             "BBBBBBBBBBB:::Aerodynamic:::Daft Punk" +:+ nl)
  else None.

Definition search (query : string) : option string :=
  Some ("https://www.youtube.com/watch?v=AAAAAAAAAAA" +:+ nl).

Definition w : world := World itunes mix search (fun _ => SpawnAlive).

(** The same world with an mpv that dies at once. *)
Definition dead : world := World itunes mix search (fun _ => SpawnDied).

(** A world whose search answers with edits of one title. *)
Definition edits : world :=
  World (fun _ => HttpJson
                    [ItunesItem (Some "One More Time (Radio Edit)")
                       (Some "Daft Punk");
                     ItunesItem (Some "ONE MORE time (Club Mix)")
                       (Some "Daft Punk");
                     ItunesItem (Some "Around the World (Live)")
                       (Some "Daft Punk")])
    mix search (fun _ => SpawnAlive).

(** A world whose search fails with an exception of empty text. *)
Definition mute : world :=
  World (fun _ => HttpFailed "") mix search (fun _ => SpawnAlive).

(** A controller whose store holds one seed track. *)
Definition seeded (seed : song) : MusicTUI :=
  MusicTUI.set_heap [seed] MusicTUI.init.

(** A controller showing [tracks], with the cursor at [i]. *)
Definition showing (tracks : list song) (i : Z) : MusicTUI :=
  MusicTUI.set_selected_index i
    (MusicTUI.assign_results tracks MusicTUI.init).

End Demo.

(** ** The search prompt *)

Module Prompt.

(** [curses.KEY_BACKSPACE] *)
Definition KEY_BACKSPACE : Z := 263.

(** Where [custom_input] stands after some keys: still reading, with its
    [buffer]; returned ["".join(buffer)]; or returned [None]. *)
Inductive outcome :=
| Typing (buffer : list ascii)
| Entered (text : string)
| Escaped.

(** One turn of the loop of [custom_input] on the key [getch] brought. *)
Definition on_getch (buffer : list ascii) (key : Z) : outcome :=
  if ((key =? 10) || (key =? 13))%Z
  then Entered (string_of_list_ascii buffer)
  else if (key =? 27)%Z then Escaped
  else if ((key =? KEY_BACKSPACE) || (key =? 127))%Z
  then Typing (match buffer with [] => buffer | _ :: _ => removelast buffer end)
  else if ((32 <=? key) && (key <=? 126))%Z
  then Typing (buffer ++ [ascii_of_nat (Z.to_nat key)])
  else Typing buffer.

Fixpoint custom_input_from (buffer : list ascii) (keys : list Z) : outcome :=
  match keys with
  | [] => Typing buffer
  | key :: keys' =>
      match on_getch buffer key with
      | Typing buffer' => custom_input_from buffer' keys'
      | done => done
      end
  end.

(** [custom_input()] fed with the keys [getch] brings, in order. *)
Definition custom_input (keys : list Z) : outcome := custom_input_from [] keys.

(** [ord(c)] *)
Definition ord (c : ascii) : Z := Z.of_nat (nat_of_ascii c).

(** A character the prompt takes: [32 <= ord(c) <= 126]. *)
Definition printable (c : ascii) : bool :=
  ((32 <=? ord c) && (ord c <=? 126))%Z.

End Prompt.

(** ** What [draw_screen] puts on the terminal *)

Module Screen.

Fixpoint take_chars (n : nat) (s : string) : string :=
  match n, s with
  | S k, String c s' => String c (take_chars k s')
  | _, _ => EmptyString
  end.

(** [text[:n]] *)
Definition upto (n : Z) (text : string) : string :=
  if (0 <=? n)%Z then take_chars (Z.to_nat n) text
  else take_chars (String.length text - Z.to_nat (- n)) text.

(** [safe_addstr(y, x, text)] on a terminal of [h] rows and [w] columns:
    the arguments of the call to [addstr], if it is made. *)
Definition safe_addstr (h w y x : Z) (text : string)
  : option (Z * Z * string) :=
  if ((h <=? y) || (w <=? x))%Z then None
  else
    let max_len := (w - x - 1)%Z in
    let text :=
      if (max_len <? Z.of_nat (String.length text))%Z then upto max_len text
      else text in
    Some (y, x, text).

(** The rows of the list: the screen row and the index into [results] of
    each entry drawn, for a terminal of [h] rows. *)
Definition list_rows (h : Z) (selected_index : Z) (n : nat) : list (Z * Z) :=
  let max_rows := (h - 5)%Z in
  if (0 <? max_rows)%Z then
    let start := Z.max 0 (selected_index - max_rows / 2) in
    let end_ := Z.min (Z.of_nat n) (start + max_rows) in
    map (fun i => (Z.of_nat i + 3, start + Z.of_nat i)%Z)
      (seq 0 (Z.to_nat (end_ - start)))
  else [].

(** The text of the status bar; [None] when [s['track']] is asked of a
    missing [current_song], which raises. *)
Definition status_bar (st : MusicTUI) : option string :=
  if loading st then Some ("[ ... " +:+ status_message st +:+ " ... ]")
  else if is_playing (player st) then
    match current_song (player st) with
    | Some l =>
        let s := deref (heap st) l in
        let status_icon :=
          if is_paused (player st) then "[PAUSED]" else "[PLAYING]" in
        let disp_song :=
          if negb (String.eqb (artist s) "YouTube Mix")
          then track s +:+ " - " +:+ artist s
          else track s in
        Some (status_icon +:+ " " +:+ disp_song)
    | None => None
    end
  else Some (status_message st).

End Screen.

(** ** Notions used by the properties *)

(** The locator [_bg] of [play_selection] plays for a track [s]: built from
    its ['video_id'], or else asked of yt-dlp. *)
Definition play_url (w : world) (s : song) : option string :=
  match video_id s with
  | Some vid => Some ("https://www.youtube.com/watch?v=" +:+ vid)
  | None => get_youtube_url w (track s +:+ " " +:+ artist s +:+ " audio")
  end.

(** Keys that ask for no track: anything but Enter, next, back, search,
    quit and the interrupt. *)
Definition idle_key (k : MusicTUI.key) : bool :=
  match k with
  | MusicTUI.KeyErr | MusicTUI.KeyOther | MusicTUI.KeyUp | MusicTUI.KeyDown
  | MusicTUI.KeySpace | MusicTUI.KeyStop | MusicTUI.KeyAutoplay => true
  | _ => false
  end.

(** Happenings in which no track is asked for and no thread runs. *)
Definition idle_happening (ev : happening) : bool :=
  match ev with
  | Turn k => idle_key k
  | ChildExit => true
  | Scheduled _ => false
  end.

(** The player is consistent: [is_playing] exactly while a handle is held,
    and a held handle comes with a current track and no explicit stop. *)
Definition player_ok (p : AudioPlayer) : Prop :=
  (is_playing p = true <-> process p <> None) /\
  (process p <> None ->
   manually_stopped p = false /\ current_song p <> None).

(** The track an iTunes entry becomes. *)
Definition itunes_song (item : itunes_item) : song :=
  Song (default "Unknown" (trackName item))
       (default "Unknown" (artistName item)) None.

(** Every character of [s] is one of [[a-zA-Z0-9_-]]. *)
Fixpoint all_id_chars (s : string) : bool :=
  match s with
  | EmptyString => true
  | String c s' => is_id_char c && all_id_chars s'
  end.

(** A track of the mix read off a line of yt-dlp's output: the first three
    fields of the line, cut at [":::"]. *)
Definition mix_line (s : song) (line : string) : Prop :=
  exists vid_id rest,
    Py.split ":::" line = vid_id :: track s :: artist s :: rest /\
    video_id s = Some vid_id.

(** Two controller states that differ at most in the status message and
    the loading flag. *)
Definition same_but_status (st st' : MusicTUI) : Prop :=
  player st' = player st /\ heap st' = heap st /\ results st' = results st /\
  selected_index st' = selected_index st /\ mode st' = mode st /\
  autoplay st' = autoplay st /\ search_term st' = search_term st.

(** The same, the cursor left free as well. *)
Definition same_but_cursor (st st' : MusicTUI) : Prop :=
  player st' = player st /\ heap st' = heap st /\ results st' = results st /\
  mode st' = mode st /\ autoplay st' = autoplay st /\
  search_term st' = search_term st.

(** What a key does to the player. *)
Definition player_after_key (k : MusicTUI.key) (p : AudioPlayer)
  : AudioPlayer :=
  match k with
  | MusicTUI.KeyQuit | MusicTUI.KeyStop | MusicTUI.KeySearch _ =>
      AudioPlayer.stop p
  | MusicTUI.KeySpace => AudioPlayer.toggle_pause p
  | MusicTUI.KeyNext =>
      match current_song p with
      | Some _ => AudioPlayer.stop p
      | None => p
      end
  | _ => p
  end.

(** Reading a field through the field updates. *)
Ltac fields :=
  cbn [player heap results selected_index search_term status_message loading
       autoplay mode fst snd
       MusicTUI.set_player MusicTUI.set_heap MusicTUI.set_results
       MusicTUI.set_selected_index MusicTUI.set_search_term
       MusicTUI.set_status_message MusicTUI.set_loading MusicTUI.set_autoplay
       MusicTUI.set_mode] in *.

(** Closing a goal [player_ok] on a player written out. *)
Ltac player_ok_now :=
  unfold player_ok; cbn;
  repeat split; intros;
  try discriminate; try reflexivity; try congruence;
  try (exfalso; match goal with H : _ <> _ |- _ => now apply H end).

(** Taking apart the next [match] or [if] of the goal. *)
Ltac break_match :=
  match goal with
  | |- context [match ?x with _ => _ end] => destruct x eqn:?
  end.

(** The first half of [_bg] of [play_selection]: the locator found for
    [selected] and the state once its identifier is attached. *)
Definition resolve_stage (w : world) (selected : loc) (st : MusicTUI)
  : option string * MusicTUI :=
  let s := deref (heap st) selected in
  match video_id s with
  | Some vid => (Some ("https://www.youtube.com/watch?v=" +:+ vid), st)
  | None =>
      let query := track s +:+ " " +:+ artist s +:+ " audio" in
      let url := get_youtube_url w query in
      if MusicTUI.truthy url
      then match extract_video_id (default "" url) with
           | Some vid_id =>
               if MusicTUI.truthy (Some vid_id)
               then (url, MusicTUI.attach_video_id selected vid_id st)
               else (url, st)
           | None => (url, st)
           end
      else (url, st)
  end.

(** A title as the radio compares titles, in the words of the
    specification and apart from the code: lowercased, then cut before its
    first ['(']. *)
Fixpoint before_paren (s : string) : string :=
  match s with
  | EmptyString => EmptyString
  | String c s' =>
      if Ascii.eqb c "("%char then EmptyString else String c (before_paren s')
  end.

Definition title_key (t : string) : string := before_paren (Py.lower t).

(** ** Invariants used below *)

(** A handle is only ever held with [manually_stopped] cleared. *)
Definition handle_means_unstopped (p : AudioPlayer) : Prop :=
process p <> None -> manually_stopped p = false.

(** What the loop of [fetch_youtube_mix] maintains: [seen_ids] holds the
    identifiers of [new_results], which are pairwise distinct and all
    differ from the seed's. *)
Definition mix_inv (video_id0 : string) (acc : list song * gset string)
  : Prop :=
  (forall k, k ∈ acc.2 <-> In (Some k) (map video_id acc.1)) /\
  NoDup (map video_id acc.1) /\
  Forall (fun s => video_id s <> Some video_id0) acc.1.

(** What the loop of [fetch_itunes_results] maintains. *)
Definition itunes_inv (acc : list song * gset string) : Prop :=
  (forall k, k ∈ acc.2 <->
             In k (map (fun s => itunes_key (track s) (artist s)) acc.1)) /\
  NoDup (map (fun s => itunes_key (track s) (artist s)) acc.1).

(** A guarded move of the cursor by one keeps it in range. *)
Ltac cursor_moved H :=
  let Hlo := fresh "Hlo" in
  let Hhi := fresh "Hhi" in
  let Hne := fresh "Hne" in
  destruct H as [Hlo Hhi];
  split; cbn; [lia | intros Hne; try specialize (Hhi Hne); lia].

(** * Properties *)

(** ** The liveness poll *)

Section Liveness.

Import AudioPlayer.

Lemma step_keeps_unstopped p e :
  handle_means_unstopped p -> handle_means_unstopped (fst (step p e)).
Proof.
  unfold handle_means_unstopped.
  destruct e as [w url l| | |]; cbn.
  - intros _ _. unfold play. cbn. destruct (mpv_spawn w url); reflexivity.
  - intros _ H. now elim H.
  - unfold child_exits.
    destruct (process p) as [[|]|] eqn:E; cbn; rewrite ?E; auto.
  - unfold check_status.
    destruct (process p) as [[|]|] eqn:E; cbn; rewrite ?E; auto.
Qed.

Lemma run_keeps_unstopped es : forall p,
  handle_means_unstopped p -> handle_means_unstopped (fst (run p es)).
Proof.
  induction es as [|e es IH]; intros p Hp; cbn; [exact Hp|].
  pose proof (step_keeps_unstopped p e Hp) as H1.
  destruct (step p e) as [p' r]. cbn in H1.
  specialize (IH p' H1). destruct (run p' es) as [p'' rs]. exact IH.
Qed.

Lemma polls_bounded es : forall p,
  (count_true (snd (run p es)) <= natural_exits p es + unseen_exit p)%nat.
Proof.
  induction es as [|e es IH]; intros p; cbn; [lia|].
  specialize (IH (fst (step p e))).
  destruct (step p e) as [p' r] eqn:Hs. cbn in IH |- *.
  destruct (run p' es) as [p'' rs]. cbn in IH |- *.
  destruct e as [w url l| | |]; cbn in Hs.
  - injection Hs as <- <-.
    assert (unseen_exit (play w url l p) = 0%nat) as E.
    { unfold unseen_exit, play. cbn. destruct (mpv_spawn w url); reflexivity. }
    rewrite E in IH. lia.
  - injection Hs as <- <-. cbn in IH. lia.
  - injection Hs as <- <-. unfold child_exits, unseen_exit in *.
    destruct (process p) as [[|]|] eqn:E; cbn in IH; try rewrite E in IH; lia.
  - unfold check_status, unseen_exit in *.
    destruct (process p) as [[|]|] eqn:E; injection Hs as <- <-;
      cbn in IH |- *; try rewrite E in IH; try lia.
    destruct (manually_stopped p); cbn; lia.
Qed.

Lemma quiet_without_handle es : forall p,
  process p <> Some Exited ->
  forallb (fun e => negb (is_exit e)) es = true ->
  Forall (fun b => b = false) (snd (run p es)).
Proof.
  induction es as [|e es IH]; intros p Hp Hes; cbn; [constructor|].
  cbn in Hes. apply andb_prop in Hes as [He Hes].
  assert (process (fst (step p e)) <> Some Exited /\
          (forall b, snd (step p e) = Some b -> b = false)) as [H1 H2].
  { destruct e as [w url l| | |]; cbn in *; try discriminate.
    - split; [|discriminate]. unfold play; cbn.
      destruct (mpv_spawn w url); discriminate.
    - split; discriminate.
    - unfold check_status. destruct (process p) as [[|]|] eqn:E; cbn.
      + rewrite E. split; [discriminate|]. now intros b [= <-].
      + now elim Hp.
      + rewrite E. split; [discriminate|]. now intros b [= <-]. }
  destruct (step p e) as [p' r]. cbn in H1, H2.
  specialize (IH p' H1 Hes). destruct (run p' es) as [p'' rs]. cbn in *.
  destruct r as [b|]; [constructor; auto | exact IH].
Qed.

Lemma never_started es : forall p,
  process p = None ->
  forallb (fun e => negb (is_play e)) es = true ->
  Forall (fun b => b = false) (snd (run p es)).
Proof.
  induction es as [|e es IH]; intros p Hp Hes; cbn; [constructor|].
  cbn in Hes. apply andb_prop in Hes as [He Hes].
  assert (process (fst (step p e)) = None /\
          (forall b, snd (step p e) = Some b -> b = false)) as [H1 H2].
  { destruct e as [w url l| | |]; cbn in *; try discriminate.
    - split; [reflexivity|discriminate].
    - unfold child_exits. rewrite Hp. split; [exact Hp|discriminate].
    - unfold check_status. rewrite Hp. cbn. split; [exact Hp|].
      now intros b [= <-]. }
  destruct (step p e) as [p' r]. cbn in H1, H2.
  specialize (IH p' H1 Hes). destruct (run p' es) as [p'' rs]. cbn in *.
  destruct r as [b|]; [constructor; auto | exact IH].
Qed.

(** C1. [check_status] answers [True] at most once per natural exit of
    the owned child.  (1) It answers [False] whenever
    [manually_stopped] is set, the child is still running, or no handle
    is held.  (2) In a run from the initial player with no [play], every
    poll answers [False].  (3) After any run from the initial player
    that leaves a running child, the first poll after that child ends by
    itself answers [True].  (4) Once a poll has answered [True], every
    later poll answers [False] until a further exit happens.  (5) In
    every run from the initial player the polls that answered [True] are
    no more than the natural exits of the run.  (An mpv that is gone by
    the end of the grace delay of [play] is dropped by [play] itself: it
    is an outcome of the spawn, [SpawnDied], and leaves no handle.) *)
Theorem check_status_once :
  (forall p,
     manually_stopped p = true \/ process p = Some Running \/
     process p = None ->
     snd (check_status p) = false) /\
  (forall es,
     forallb (fun e => negb (is_play e)) es = true ->
     Forall (fun b => b = false) (snd (run init es))) /\
  (forall es,
     process (fst (run init es)) = Some Running ->
     snd (check_status (child_exits (fst (run init es)))) = true) /\
  (forall p es,
     snd (check_status p) = true ->
     forallb (fun e => negb (is_exit e)) es = true ->
     Forall (fun b => b = false) (snd (run (fst (check_status p)) es))) /\
  (forall es,
     (count_true (snd (run init es)) <= natural_exits init es)%nat).
Proof.
  repeat split.
  - intros p H. unfold check_status.
    destruct (process p) as [[|]|] eqn:E; cbn; auto.
    destruct H as [H|[H|H]]; try discriminate. now rewrite H.
  - intros es H. now apply never_started.
  - intros es H.
    pose proof (run_keeps_unstopped es init) as Hu.
    unfold handle_means_unstopped in Hu.
    unfold child_exits, check_status. rewrite H. cbn.
    rewrite Hu; [reflexivity | intros _; reflexivity | rewrite H; discriminate].
  - intros p es Hp Hes. apply quiet_without_handle; [|exact Hes].
    unfold check_status in *.
    destruct (process p) as [[|]|] eqn:E; cbn in *; try discriminate.
  - intros es. pose proof (polls_bounded es init) as H.
    cbn in H. lia.
Qed.

End Liveness.

(** ** The artist cleaner *)

Section Cleaner.

Lemma split_go_cons sep k s : exists p ps, Py.split_go sep k s = p :: ps.
Proof.
  revert k. induction s as [|c s IH]; intros k; cbn; [eauto|].
  destruct k as [|k]; [|apply IH].
  destruct (Py.startswith sep (String c s)); [eauto|].
  destruct (IH 0%nat) as (p & ps & ->). eauto.
Qed.

Lemma first_split sep s :
  Py.first (Py.split sep s) = before_any [sep] s.
Proof.
  unfold Py.split, Py.first.
  induction s as [|c s IH]; cbn; [reflexivity|].
  rewrite orb_false_r.
  destruct (Py.startswith sep (String c s)); [reflexivity|].
  destruct (split_go_cons sep 0 s) as (p & ps & E).
  rewrite E in IH |- *. cbn in *. now rewrite IH.
Qed.

Lemma before_absent sep s :
  Py.contains sep s = false -> before_any [sep] s = s.
Proof.
  induction s as [|c s IH]; cbn; [reflexivity|].
  rewrite orb_false_r. intros H. apply orb_false_elim in H as [H1 H2].
  rewrite H1. now rewrite IH.
Qed.

Lemma clean_step_before cleaned sep :
  clean_step cleaned sep = before_any [sep] cleaned.
Proof.
  unfold clean_step. destruct (Py.contains sep cleaned) eqn:E.
  - apply first_split.
  - symmetry. now apply before_absent.
Qed.

Lemma startswith_both u : forall v s,
  Py.startswith u s = true -> Py.startswith v s = true -> agree u v = true.
Proof.
  unfold agree.
  induction u as [|a u IH]; intros v s Hu Hv; [reflexivity|].
  destruct v as [|b v]; [apply orb_true_r|].
  destruct s as [|c s]; [discriminate|]. cbn in *.
  destruct (Ascii.eqb_spec a c) as [->|]; [|discriminate].
  destruct (Ascii.eqb_spec b c) as [->|]; [|discriminate].
  rewrite Ascii.eqb_refl. eauto.
Qed.

(** A match of [u] at the head survives the cut at [v] when [v] does not
    begin there and no occurrence of [u] runs into one of [v]. *)
Lemma startswith_kept v u : forall s,
  Py.startswith u s = true ->
  Py.startswith v s = false ->
  runs_into v u = false ->
  Py.startswith u (before_any [v] s) = true.
Proof.
  induction u as [|a u IH]; intros s Hu Hv Hr; [reflexivity|].
  destruct s as [|c s]; [discriminate|].
  cbn [before_any existsb]. rewrite Hv. cbn in Hu |- *.
  destruct (Ascii.eqb a c); [|discriminate].
  destruct u as [|a' u]; [reflexivity|].
  cbn [runs_into tails_agree] in Hr.
  apply orb_false_elim in Hr as [Hr1 Hr2].
  apply IH; [exact Hu| |exact Hr2].
  destruct (Py.startswith v s) eqn:E; [|reflexivity].
  now rewrite (startswith_both _ _ _ Hu E) in Hr1.
Qed.

Lemma startswith_of_before v u : forall s,
  Py.startswith u (before_any [v] s) = true -> Py.startswith u s = true.
Proof.
  induction u as [|a u IH]; intros s H; [reflexivity|].
  destruct s as [|c s]; [discriminate|].
  cbn [before_any existsb] in H.
  destruct (Py.startswith v (String c s) || false); [discriminate|].
  cbn in *. destruct (Ascii.eqb a c); [eauto|discriminate].
Qed.

(** Cutting at [v] first and at the others afterwards is cutting at the
    first of them all, when none of the others runs into [v]. *)
Lemma before_any_cons v rest :
  forallb (fun u => negb (runs_into v u)) rest = true ->
  forall s, before_any (v :: rest) s = before_any rest (before_any [v] s).
Proof.
  intros Hrest. induction s as [|c s IH]; [reflexivity|].
  cbn [before_any existsb]. rewrite orb_false_r.
  destruct (Py.startswith v (String c s)) eqn:Hv; cbn [orb]; [reflexivity|].
  cbn [before_any]. rewrite <- IH.
  assert (existsb (fun sep => Py.startswith sep (String c (before_any [v] s)))
            rest
          = existsb (fun sep => Py.startswith sep (String c s)) rest) as ->;
    [|reflexivity].
  clear IH. induction rest as [|u rest IHr]; [reflexivity|].
  cbn in Hrest. apply andb_prop in Hrest as [Hu Hrest].
  cbn [existsb]. rewrite (IHr Hrest). f_equal.
  pose proof (startswith_kept v u (String c s)) as K.
  pose proof (startswith_of_before v u (String c s)) as B.
  cbn [before_any existsb] in K, B. rewrite Hv in K, B. cbn [orb] in K, B.
  destruct (Py.startswith u (String c s)) eqn:E.
  - apply K; [reflexivity|reflexivity|]. now destruct (runs_into v u).
  - destruct (Py.startswith u (String c (before_any [v] s))) eqn:E2;
      [|reflexivity].
    symmetry. exact (B eq_refl).
Qed.

Lemma before_any_nil s : before_any [] s = s.
Proof. induction s as [|c s IH]; cbn; [reflexivity|now rewrite IH]. Qed.

(** C7. [clean_artist_name] returns the input cut at the first place
    where one of ["&"], ["feat."], ["Feat."], ["ft."], [","], [" x "]
    begins, with the surrounding whitespace trimmed; on
    ["Daft Punk feat. Pharrell"] that is ["Daft Punk"]. *)
Theorem clean_artist_name_first_separator :
  (forall artist_raw,
     clean_artist_name artist_raw
     = Py.strip (before_any ["&"; "feat."; "Feat."; "ft."; ","; " x "]
                   artist_raw)) /\
  clean_artist_name "Daft Punk feat. Pharrell" = "Daft Punk".
Proof.
  split; [|reflexivity].
  intros s. unfold clean_artist_name, separators. f_equal.
  cbn [fold_left]. rewrite !clean_step_before.
  rewrite (before_any_cons "&" ["feat."; "Feat."; "ft."; ","; " x "]);
    [|reflexivity].
  rewrite (before_any_cons "feat." ["Feat."; "ft."; ","; " x "]);
    [|reflexivity].
  rewrite (before_any_cons "Feat." ["ft."; ","; " x "]); [|reflexivity].
  rewrite (before_any_cons "ft." [","; " x "]); [|reflexivity].
  rewrite (before_any_cons "," [" x "]); [|reflexivity].
  reflexivity.
Qed.

End Cleaner.

(** ** The provider adapters *)

Section Adapters.

Lemma fold_left_keeps {A B} (P : A -> Prop) (f : A -> B -> A) (l : list B) :
  (forall a x, P a -> P (f a x)) -> forall a, P a -> P (fold_left f l a).
Proof.
  intros Hf. induction l as [|x l IH]; intros a Ha; cbn; [exact Ha|].
  apply IH, Hf, Ha.
Qed.

Lemma NoDup_snoc {A} (l : list A) (x : A) :
  NoDup l -> ~ In x l -> NoDup (l ++ [x]).
Proof.
  intros Hl Hx. apply NoDup_app. split; [exact Hl|]. split.
  - intros y Hy Hy'. apply list_elem_of_singleton in Hy'. subst y.
    apply Hx. now apply list_elem_of_In.
  - apply NoDup_singleton.
Qed.

Lemma mix_step_inv video_id0 acc line :
  mix_inv video_id0 acc -> mix_inv video_id0 (mix_step video_id0 acc line).
Proof.
  destruct acc as [out seen]. intros Hinv.
  pose proof Hinv as (Hseen & Hnd & Hne). unfold mix_step.
  destruct (negb (Py.contains ":::" line)); [exact Hinv|].
  destruct (length (Py.split ":::" line) <? 3)%nat; [exact Hinv|].
  destruct (Py.split ":::" line) as [|vid_id [|title [|uploader rest]]];
    try exact Hinv.
  destruct (String.eqb_spec vid_id video_id0) as [|Hv]; [exact Hinv|].
  case_bool_decide as Hin; [exact Hinv|]. clear Hinv.
  unfold mix_inv. cbn [fst snd] in *. rewrite map_app. cbn [map video_id].
  split; [|split].
  - intros k. rewrite elem_of_union, elem_of_singleton, in_app_iff, Hseen.
    cbn. split.
    + intros [->|H]; auto.
    + intros [H|[[= ->]|[]]]; auto.
  - apply NoDup_snoc; [exact Hnd|]. rewrite <- Hseen. exact Hin.
  - apply Forall_app. split; [exact Hne|].
    constructor; [|constructor]. cbn. congruence.
Qed.

Lemma parse_mix_inv video_id0 output :
  mix_inv video_id0
    (fold_left (mix_step video_id0) (Py.splitlines output) ([], ∅)).
Proof.
  apply fold_left_keeps; [intros; now apply mix_step_inv|].
  split; [|split; constructor].
  intros k. cbn. rewrite elem_of_empty. tauto.
Qed.

(** C9. The list returned by [fetch_youtube_mix] holds no entry with
    the seed's identifier and no two entries with the same identifier,
    and it is empty whenever the call to yt-dlp raises. *)
Theorem youtube_mix_sound (w : world) (seed_id : string) :
  Forall (fun s => video_id s <> Some seed_id) (fetch_youtube_mix w seed_id)
  /\ NoDup (map video_id (fetch_youtube_mix w seed_id))
  /\ (ytdlp_mix w (mix_url seed_id) = None ->
      fetch_youtube_mix w seed_id = []).
Proof.
  unfold fetch_youtube_mix.
  destruct (ytdlp_mix w (mix_url seed_id)) as [output|].
  - destruct (parse_mix_inv seed_id output) as (_ & Hnd & Hne).
    unfold parse_mix. repeat split; [exact Hne|exact Hnd|discriminate].
  - repeat split; constructor.
Qed.

Lemma itunes_step_inv acc item :
  itunes_inv acc -> itunes_inv (itunes_step acc item).
Proof.
  destruct acc as [out seen]. intros Hinv.
  pose proof Hinv as (Hseen & Hnd). unfold itunes_step.
  case_bool_decide as Hin; [exact Hinv|]. clear Hinv.
  unfold itunes_inv. cbn [fst snd] in *. rewrite map_app.
  cbn [map track artist]. split.
  - intros k. rewrite elem_of_union, elem_of_singleton, in_app_iff, Hseen.
    cbn. split.
    + intros [->|H]; auto.
    + intros [H|[->|[]]]; auto.
  - apply NoDup_snoc; [exact Hnd|]. rewrite <- Hseen. exact Hin.
Qed.

(** The tracks kept by [fetch_itunes_results] have pairwise distinct
    keys, hence pairwise distinct (lowercased title, lowercased artist). *)
Lemma itunes_dedup_keys_distinct items :
  NoDup (map (fun s => itunes_key (track s) (artist s)) (itunes_dedup items)).
Proof.
  unfold itunes_dedup.
  apply (fold_left_keeps itunes_inv);
    [intros; now apply itunes_step_inv|].
  split; cbn; [|constructor]. intros k. rewrite elem_of_empty. tauto.
Qed.

(** C6. Two tracks with different (lowercased title, lowercased artist)
    whose lowercased title and artist concatenate to the same text: the
    second is dropped by [fetch_itunes_results]. *)
Theorem itunes_key_collision :
  let w := World (fun _ => HttpJson [ItunesItem (Some "ab") (Some "c");
                                     ItunesItem (Some "a") (Some "bc")])
             (fun _ => None) (fun _ => None) (fun _ => SpawnAlive) in
  fetch_itunes_results w "ab" = ([Song "ab" "c" None], None)
  /\ (Py.lower "a", Py.lower "bc") <> (Py.lower "ab", Py.lower "c")
  /\ itunes_key "a" "bc" = itunes_key "ab" "c".
Proof.
  cbv zeta. split; [vm_compute; reflexivity|]. split; [|reflexivity].
  cbn. congruence.
Qed.

End Adapters.

(** ** Navigation *)

Section Navigation.

Import MusicTUI.

Lemma deref_alloc (h : store) (new : list song) :
  map (deref (h ++ new)) (seq (length h) (length new)) = new.
Proof.
  revert h. induction new as [|x new IH]; intros h; [reflexivity|].
  cbn [length seq map]. f_equal.
  - unfold deref. now rewrite list_lookup_middle.
  - specialize (IH (h ++ [x])).
    rewrite <- app_assoc, length_app in IH. cbn in IH.
    now rewrite Nat.add_1_r in IH.
Qed.

Lemma shown_assign_results (new : list song) (st : MusicTUI) :
  shown (assign_results new st) = new.
Proof. unfold shown, assign_results. cbn. apply deref_alloc. Qed.

Lemma deref_assign_results (new : list song) (st : MusicTUI) (l : loc) :
  (l < length (heap st))%nat ->
  deref (heap (assign_results new st)) l = deref (heap st) l.
Proof.
  intros H. unfold assign_results, deref. cbn. now rewrite lookup_app_l.
Qed.

Lemma length_assign_results (new : list song) (st : MusicTUI) :
  length (results (assign_results new st)) = length new.
Proof. unfold assign_results. cbn. apply length_seq. Qed.

(** The [enumerate] loop stops at the first title that differs. *)
Lemma first_other_spec last_clean (l : list song) : forall i,
  match first_other last_clean i l with
  | Some k =>
      exists j s,
        k = (i + j)%nat /\ l !! j = Some s /\
        clean_title (track s) <> last_clean /\
        forall j' s', (j' < j)%nat -> l !! j' = Some s' ->
                      clean_title (track s') = last_clean
  | None => Forall (fun s => clean_title (track s) = last_clean) l
  end.
Proof.
  induction l as [|x l IH]; intros i; cbn; [constructor|].
  destruct (String.eqb_spec (clean_title (track x)) last_clean) as [E|E]; cbn.
  - specialize (IH (S i)).
    destruct (first_other last_clean (S i) l) as [k|].
    + destruct IH as (j & s & -> & Hj & Hs & Hbefore).
      exists (S j), s. repeat split; [lia|exact Hj|exact Hs|].
      intros [|j'] s' Hlt Hl; cbn in Hl.
      * now injection Hl as <-.
      * apply (Hbefore j'); [lia|exact Hl].
    + now constructor.
  - exists 0%nat, x. repeat split; [lia|exact E|]. intros j' s' Hlt. lia.
Qed.

(** The cursor of the artist fallback, in terms of [clean_title]. *)
Lemma artist_fallback_by_clean_title (w : world) (prev_song : loc) (st : MusicTUI) :
  let seed := deref (heap st) prev_song in
  let res := (fetch_itunes_results w (clean_artist_name (artist seed))).1 in
  let st' := (smart_by_artist w prev_song st).1.1 in
  (prev_song < length (heap st))%nat ->
  res <> [] ->
  shown st' = res /\
  ((exists i s,
      selected_index st' = Z.of_nat i /\ res !! i = Some s /\
      clean_title (track s) <> clean_title (track seed) /\
      forall j s', (j < i)%nat -> res !! j = Some s' ->
                   clean_title (track s') = clean_title (track seed))
   \/ (selected_index st' = 0%Z /\
       Forall (fun s => clean_title (track s) = clean_title (track seed))
         res)).
Proof.
  cbv zeta. intros Hl Hres. unfold smart_by_artist.
  set (q := clean_artist_name (artist (deref (heap st) prev_song))) in *.
  destruct (fetch_itunes_results w q) as [res err]; cbn [fst] in *.
  destruct res as [|x res]; [congruence|].
  set (new := x :: res) in *.
  set (st1 := set_status_message _ st).
  pose proof (shown_assign_results new st1) as Hs.
  pose proof (deref_assign_results new st1 prev_song Hl) as Hd.
  change (heap st1) with (heap st) in Hd.
  unfold shown, pick_next_idx in *.
  cbn [fst snd heap results selected_index set_selected_index
         set_search_term set_mode] in *.
  rewrite Hs, Hd. split; [reflexivity|].
  pose proof (first_other_spec
                (clean_title (track (deref (heap st) prev_song))) new 0)
    as H.
  destruct (first_other _ 0 new) as [k|].
  - left. destruct H as (j & s & -> & H). exists j, s. now split.
  - right. now split.
Qed.

Lemma before_any_paren s : before_any ["("] s = before_paren s.
Proof.
  induction s as [|c s IH]; [reflexivity|].
  cbn [before_any existsb before_paren Py.startswith].
  rewrite orb_false_r, (Ascii.eqb_sym "("%char c).
  destruct (Ascii.eqb c "("%char); [reflexivity|now rewrite IH].
Qed.

(** [t.lower().split('(')[0]] is the lowercased title cut before its first
    ['(']. *)
Lemma clean_title_key (t : string) : clean_title t = title_key t.
Proof.
  unfold clean_title, title_key. rewrite first_split. apply before_any_paren.
Qed.

(** C8. In the artist fallback of [start_smart_radio], when the search
    returns a non-empty list, that list is shown and the cursor is the
    index of its first entry whose title, lowercased and cut before the
    first ['('], differs from the seed's title, lowercased and cut the
    same way; it is 0 when no entry differs. *)
Theorem artist_fallback_cursor (w : world) (prev_song : loc) (st : MusicTUI) :
  let seed := deref (heap st) prev_song in
  let res := (fetch_itunes_results w (clean_artist_name (artist seed))).1 in
  let st' := (smart_by_artist w prev_song st).1.1 in
  (prev_song < length (heap st))%nat ->
  res <> [] ->
  shown st' = res /\
  ((exists i s,
      selected_index st' = Z.of_nat i /\ res !! i = Some s /\
      title_key (track s) <> title_key (track seed) /\
      forall j s', (j < i)%nat -> res !! j = Some s' ->
                   title_key (track s') = title_key (track seed))
   \/ (selected_index st' = 0%Z /\
       Forall (fun s => title_key (track s) = title_key (track seed)) res)).
Proof.
  cbv zeta. intros Hl Hres.
  destruct (artist_fallback_by_clean_title w prev_song st Hl Hres)
    as [Hs [(i & s & Hi & Hr & Hne & Hbefore)|[H0 Hall]]].
  - split; [exact Hs|]. left. exists i, s. rewrite <- !clean_title_key.
    repeat split; auto. intros j s' Hj Hs'.
    rewrite <- !clean_title_key. eauto.
  - split; [exact Hs|]. right. split; [exact H0|].
    eapply Forall_impl; [exact Hall|]. intros s Hs'. cbn beta in Hs'.
    now rewrite <- !clean_title_key.
Qed.

(** The cursor passes over two entries that differ from the seed's title
    in case and in what follows the parenthesis only, and stops at the
    third. *)
Lemma artist_fallback_cursor_witness :
  let st := Demo.seeded
              (Song "One More Time (Live)" "Daft Punk feat. Pharrell" None) in
  shown (smart_by_artist Demo.edits 0 st).1.1
  = [Song "One More Time (Radio Edit)" "Daft Punk" None;
     Song "ONE MORE time (Club Mix)" "Daft Punk" None;
     Song "Around the World (Live)" "Daft Punk" None]
  /\ selected_index (smart_by_artist Demo.edits 0 st).1.1 = 2%Z
  /\ title_key "ONE MORE time (Club Mix)" = title_key "One More Time (Live)"
  /\ title_key "Around the World (Live)" <> title_key "One More Time (Live)".
Proof.
  cbv zeta.
  destruct (artist_fallback_cursor Demo.edits 0
              (Demo.seeded
                 (Song "One More Time (Live)" "Daft Punk feat. Pharrell"
                    None)))
    as [Hs [(i & s & Hi & Hr & Hne & Hbefore)|[H0 Hall]]];
    [cbn; lia | vm_compute; discriminate | |].
  - split; [exact Hs|].
    assert (i = 2%nat) as ->.
    { destruct i as [|[|[|i]]].
      - injection Hr as <-. now elim Hne.
      - injection Hr as <-. now elim Hne.
      - reflexivity.
      - discriminate Hr. }
    split; [exact Hi|]. split.
    + now apply (Hbefore 1%nat (Song "ONE MORE time (Club Mix)" "Daft Punk" None));
        [lia|].
    + injection Hr as <-. exact Hne.
  - exfalso. apply List.Forall_forall with (x := Song "Around the World (Live)" "Daft Punk" None) in Hall;
      [discriminate Hall|].
    vm_compute. auto.
Defined.

Lemma getitem_in_range (l : list loc) (i : Z) :
  (0 <= i)%Z -> getitem l i = l !! Z.to_nat i.
Proof. intros H. unfold getitem. now rewrite (Zle_imp_le_bool _ _ H). Qed.

(** [play_selection()] with the cursor on an entry starts its thread. *)
Lemma play_selection_on_entry (st : MusicTUI) (l : loc) :
  (0 <= selected_index st)%Z ->
  results st !! Z.to_nat (selected_index st) = Some l ->
  play_selection None st
  = (set_status_message
       ("Fetching: " +:+ track (deref (heap st) l) +:+ "...")
       (set_loading true st), [BgPlay l]).
Proof.
  intros H0 Hl. unfold play_selection.
  destruct (results st) as [|x r] eqn:E; [discriminate|].
  pose proof (lookup_lt_Some _ _ _ Hl) as Hlt.
  destruct (Z.leb_spec (Z.of_nat (length (x :: r))) (selected_index st));
    [lia|].
  rewrite getitem_in_range by exact H0. now rewrite Hl.
Qed.

(** C2. Smart navigation with a previous track.  In SEARCH mode it
    starts radio generation seeded with that track and leaves the cursor
    and the list alone.  In RADIO mode with the cursor before the last
    entry it moves the cursor one further and plays that entry.  In
    RADIO mode with the cursor at the last entry it starts radio
    generation again, seeded with that track. *)
Theorem smart_navigation_by_mode (st : MusicTUI) (prev : loc) :
  let st' := (handle_smart_navigation (Some prev) st).1 in
  let started := (handle_smart_navigation (Some prev) st).2 in
  let last := (Z.of_nat (length (results st)) - 1)%Z in
  (mode st = SEARCH ->
   started = [BgSmart prev] /\ selected_index st' = selected_index st /\
   results st' = results st /\ mode st' = SEARCH) /\
  (mode st = RADIO -> (0 <= selected_index st < last)%Z ->
   selected_index st' = (selected_index st + 1)%Z /\
   results st' = results st /\ mode st' = RADIO /\
   exists l, results st !! Z.to_nat (selected_index st + 1) = Some l /\
             started = [BgPlay l]) /\
  (mode st = RADIO -> (last <= selected_index st)%Z ->
   started = [BgSmart prev] /\ selected_index st' = selected_index st /\
   results st' = results st /\ mode st' = RADIO).
Proof.
  cbv zeta. unfold handle_smart_navigation. split; [|split].
  - intros Hm. rewrite Hm. cbn. auto.
  - intros Hm Hc. rewrite Hm.
    destruct (Z.ltb_spec (selected_index st)
                (Z.of_nat (length (results st)) - 1)); [|lia].
    destruct (lookup_lt_is_Some_2 (results st)
                (Z.to_nat (selected_index st + 1))) as [l Hl]; [lia|].
    rewrite (play_selection_on_entry _ l); [|cbn; lia|exact Hl].
    cbn. repeat split; auto. exists l. auto.
  - intros Hm Hc. rewrite Hm.
    destruct (Z.ltb_spec (selected_index st)
                (Z.of_nat (length (results st)) - 1)); [lia|].
    cbn. auto.
Qed.

(** The last track of a mix of 25 ends in RADIO mode: a fresh mix is
    asked for. *)
Example radio_rolls_forward :
  let st :=
    set_mode RADIO
      (Demo.showing (repeat (Song "t" "a" (Some "AAAAAAAAAAA")) 25) 24) in
  handle_smart_navigation (Some 24%nat) st
  = (set_status_message "Generating Smart Radio..." (set_loading true st),
     [BgSmart 24%nat]).
Proof. reflexivity. Qed.

(** C10. [skip_next] with no current track leaves the player alone and
    starts no radio generation; it starts nothing on an empty list and
    plays the entry under the cursor otherwise. *)
Theorem skip_next_idle (st : MusicTUI) :
  current_song (player st) = None ->
  player (skip_next st).1 = player st /\
  (forall l, ~ In (BgSmart l) (skip_next st).2) /\
  results (skip_next st).1 = results st /\
  selected_index (skip_next st).1 = selected_index st /\
  (results st = [] -> skip_next st = (st, [])) /\
  (forall l, (0 <= selected_index st)%Z ->
             results st !! Z.to_nat (selected_index st) = Some l ->
             (skip_next st).2 = [BgPlay l]).
Proof.
  intros Hc. unfold skip_next. rewrite Hc.
  assert (forall l, (0 <= selected_index st)%Z ->
                    results st !! Z.to_nat (selected_index st) = Some l ->
                    (play_selection None st).2 = [BgPlay l]) as Hplay.
  { intros l H0 Hl. now rewrite (play_selection_on_entry st l). }
  unfold play_selection in *.
  destruct (results st) as [|x r] eqn:E;
    [|destruct (Z.of_nat (length (x :: r)) <=? selected_index st)%Z;
      [|destruct (getitem (x :: r) (selected_index st)) as [l0|]]];
    cbn; repeat split; auto; try discriminate;
    try (intros ? []); try (intros ? [?|[]]; discriminate);
    try solve [cbn in *; intuition discriminate].
Qed.

Lemma skip_next_idle_witness :
  let st := Demo.showing [Song "One More Time" "Daft Punk" None;
                          Song "Around the World" "Daft Punk" None] 1 in
  player (skip_next st).1 = player st /\ (skip_next st).2 = [BgPlay 1%nat].
Proof.
  cbv zeta.
  destruct (skip_next_idle
              (Demo.showing [Song "One More Time" "Daft Punk" None;
                             Song "Around the World" "Daft Punk" None] 1))
    as (Hp & _ & _ & _ & _ & Hplay); [reflexivity|].
  split; [exact Hp|]. apply Hplay; [cbn; lia|reflexivity].
Defined.

(** ** The cursor *)

Lemma cursor_ok_same (st st' : MusicTUI) :
  results st' = results st -> selected_index st' = selected_index st ->
  cursor_ok st -> cursor_ok st'.
Proof. unfold cursor_ok. intros -> ->. auto. Qed.

Lemma play_selection_same (o : option loc) (st : MusicTUI) :
  results (play_selection o st).1 = results st /\
  selected_index (play_selection o st).1 = selected_index st.
Proof.
  unfold play_selection. destruct o; [now split|].
  destruct (results st) eqn:E; [cbn; now rewrite E|].
  destruct (_ <=? _)%Z; [cbn; now rewrite E|].
  destruct (getitem _ _); cbn; now rewrite E.
Qed.

Lemma play_selection_cursor (o : option loc) (st : MusicTUI) :
  cursor_ok st -> cursor_ok (play_selection o st).1.
Proof.
  destruct (play_selection_same o st). now apply cursor_ok_same.
Qed.

Lemma handle_smart_navigation_cursor (o : option loc) (st : MusicTUI) :
  cursor_ok st -> cursor_ok (handle_smart_navigation o st).1.
Proof.
  intros H. unfold handle_smart_navigation.
  destruct (match o with Some l => Some l | None => _ end); [|exact H].
  destruct (mode st); [exact H|].
  destruct (Z.ltb_spec (selected_index st)
              (Z.of_nat (length (results st)) - 1)); [|exact H].
  apply play_selection_cursor. cursor_moved H.
Qed.

Lemma pick_next_idx_in_range (t : string) (l : list song) :
  l <> [] ->
  (0 <= pick_next_idx t l < Z.of_nat (length l))%Z.
Proof.
  intros Hl. unfold pick_next_idx.
  pose proof (first_other_spec (clean_title t) l 0) as H.
  destruct (first_other _ 0 l) as [k|].
  - destruct H as (j & s & -> & Hj & _). apply lookup_lt_Some in Hj. lia.
  - destruct l; [congruence|]. cbn. lia.
Qed.

Lemma bg_smart_cursor (w : world) (prev_song : loc) (st : MusicTUI) :
  cursor_ok st -> cursor_ok (bg_smart w prev_song st).1.1.
Proof.
  intros H. unfold bg_smart.
  assert (cursor_ok (smart_by_id w prev_song st).1.1) as H1.
  { unfold smart_by_id. destruct (video_id _); [|exact H].
    destruct (fetch_youtube_mix w _) as [|x mix]; [exact H|].
    split; [cbn; lia|]. intros _.
    cbn [fst selected_index results set_selected_index set_search_term
           set_mode].
    rewrite length_assign_results. cbn [length]. lia. }
  destruct (smart_by_id w prev_song st) as [[st1 found] a1]. cbn in H1.
  destruct found; cbn [negb].
  - pose proof (play_selection_cursor None (set_loading false st1)) as H2.
    destruct (play_selection None _). apply H2. exact H1.
  - assert (cursor_ok (smart_by_artist w prev_song st1).1.1) as H2.
    { unfold smart_by_artist.
      destruct (fetch_itunes_results w _) as [[|x res] err]; [exact H1|].
      set (new := x :: res). set (st2 := set_status_message _ st1).
      pose proof (shown_assign_results new st2) as Hs.
      pose proof (length_assign_results new st2) as Hlen.
      pose proof (pick_next_idx_in_range
                    (track (deref (heap (assign_results new st2)) prev_song))
                    new ltac:(discriminate)) as Hp.
      unfold shown in Hs. split.
      - cbn [fst snd selected_index set_selected_index]. unfold shown.
        cbn [heap results set_search_term set_mode]. rewrite Hs. lia.
      - intros _.
        cbn [fst snd selected_index results set_selected_index]. unfold shown.
        cbn [heap results set_search_term set_mode]. rewrite Hs, Hlen. lia. }
    destruct (smart_by_artist w prev_song st1) as [[st2 found] a2].
    cbn in H2. destruct found.
    + pose proof (play_selection_cursor None (set_loading false st2)) as H3.
      destruct (play_selection None _). apply H3. exact H2.
    + exact H2.
Qed.

Lemma bg_play_cursor (w : world) (selected : loc) (st : MusicTUI) :
  cursor_ok st -> cursor_ok (bg_play w selected st).1.
Proof.
  intros H. unfold bg_play.
  match goal with
  | |- context [let '(url, st0) := ?X in _] =>
      assert (cursor_ok X.2) as H1; [|destruct X as [url st1]]
  end.
  { destruct (video_id _); [exact H|].
    destruct (truthy (get_youtube_url w _)); [|exact H].
    destruct (extract_video_id _); [|exact H].
    destruct (truthy _); exact H. }
  cbn [snd] in H1. destruct (truthy url).
  - destruct (_ && _); [|exact H1].
    apply handle_smart_navigation_cursor. exact H1.
  - destruct (autoplay _); [|exact H1].
    apply handle_smart_navigation_cursor. exact H1.
Qed.

Lemma perform_search_cursor (w : world) (typed : option string)
  (st : MusicTUI) :
  cursor_ok st -> cursor_ok (perform_search w typed st).
Proof.
  intros H. unfold perform_search.
  destruct (negb (truthy typed)); [exact H|].
  destruct (fetch_itunes_results w _) as [res err].
  destruct (truthy err); [exact H|].
  destruct res as [|x res].
  - destruct H as [Hlo _]. split; [exact Hlo|]. now intros [].
  - split; [cbn; lia|]. intros _.
    cbn [selected_index results set_status_message set_selected_index].
    rewrite length_assign_results. cbn [length]. lia.
Qed.

Lemma on_key_cursor (w : world) (k : key) (st : MusicTUI) :
  cursor_ok st -> cursor_ok (on_key w k st).1.1.
Proof.
  intros H. destruct k; cbn [on_key fst]; try exact H.
  - destruct (Z.ltb_spec 0 (selected_index st)); [|exact H].
    cursor_moved H.
  - destruct (Z.ltb_spec (selected_index st)
                (Z.of_nat (length (results st)) - 1)); [|exact H].
    cursor_moved H.
  - apply perform_search_cursor. exact H.
  - apply play_selection_cursor. exact H.
  - unfold skip_next. destruct (current_song (player st)).
    + apply handle_smart_navigation_cursor. exact H.
    + apply play_selection_cursor. exact H.
  - unfold skip_prev. destruct (Z.ltb_spec 0 (selected_index st)); [|exact H].
    apply play_selection_cursor. cursor_moved H.
Qed.

Lemma loop_turn_cursor (w : world) (k : key) (st : MusicTUI) :
  cursor_ok st -> cursor_ok (loop_turn w k st).1.1.
Proof.
  intros H. unfold loop_turn.
  destruct (AudioPlayer.check_status (player st)) as [p ended].
  assert (cursor_ok
            (if ended && autoplay (set_player p st)
             then handle_smart_navigation None (set_player p st)
             else (set_player p st, [])).1) as H1.
  { destruct (_ && _); [|exact H].
    apply handle_smart_navigation_cursor. exact H. }
  destruct (if ended && _ then _ else _) as [st1 ts1]. cbn [fst] in H1.
  pose proof (on_key_cursor w k st1 H1) as H2.
  destruct (on_key w k st1) as [[st2 ts2] go_on]. exact H2.
Qed.

(** In every state the program reaches, the cursor is not negative and,
    when the list is not empty, it is a position of the list. *)
Lemma cursor_in_range (s : system) : reachable s -> cursor_ok (tui s).
Proof.
  induction 1 as [|w ev s Hs IH]; [split; cbn; [lia|congruence]|].
  unfold sys_step. destruct (negb (looping s)); [exact IH|].
  destruct ev as [k| |i].
  - pose proof (loop_turn_cursor w k (tui s) IH) as H.
    destruct (loop_turn w k (tui s)) as [[st ts] go_on]. exact H.
  - exact IH.
  - destruct (threads s !! i) as [[l|l]|]; [| |exact IH].
    + pose proof (bg_play_cursor w l (tui s) IH) as H.
      destruct (bg_play w l (tui s)) as [st ts]. exact H.
    + pose proof (bg_smart_cursor w l (tui s) IH) as H.
      destruct (bg_smart w l (tui s)) as [[st ts] asked]. exact H.
Qed.

Lemma cursor_in_range_witness :
  cursor_ok
    (tui (sys_run boot
            [(Demo.w, Turn (KeySearch (Some "Daft Punk")));
             (Demo.w, Turn KeyDown);
             (Demo.w, Turn KeyDown);
             (Demo.w, Turn KeyDown)])).
Proof.
  apply cursor_in_range. cbn [sys_run].
  repeat apply reach_step. apply reach_boot.
Defined.

(** ** New search *)

(** C4. A search that finds nothing empties the list and leaves the
    cursor where it was: after a search with results, one step down and
    a search without results, the list is empty and the cursor is 1. *)
Theorem empty_search_keeps_cursor :
  let s := sys_run boot
             [(Demo.w, Turn (KeySearch (Some "Daft Punk")));
              (Demo.w, Turn KeyDown);
              (Demo.w, Turn (KeySearch (Some "zzz")))] in
  reachable s /\
  fetch_itunes_results Demo.w "zzz" = ([], None) /\
  results (tui s) = [] /\ selected_index (tui s) = 1%Z.
Proof.
  cbv zeta. split; [|vm_compute; repeat split].
  cbn [sys_run]. repeat apply reach_step. apply reach_boot.
Qed.

(** C5, as the claim states it, fails: after a search with results and
    one step down, a search that ends in a network error leaves the
    three tracks and the cursor at 1, whereas the adapter returned the
    empty list. *)
Lemma search_error_keeps_list :
  let s := sys_run boot
             [(Demo.w, Turn (KeySearch (Some "Daft Punk")));
              (Demo.w, Turn KeyDown);
              (Demo.w, Turn (KeySearch (Some "offline")))] in
  fetch_itunes_results Demo.w "offline" = ([], Some "Connection timed out")
  /\ shown (tui s) = [Song "One More Time" "Daft Punk" None;
                      Song "One More Time (Radio Edit)" "Daft Punk" None;
                      Song "Around the World" "Daft Punk" None]
  /\ selected_index (tui s) = 1%Z
  /\ mode (tui s) = SEARCH.
Proof. vm_compute. repeat split. Qed.

(** A new search, by what [fetch_itunes_results] returned. *)
Lemma new_search_by_result (w : world) (query : string) (st : MusicTUI) :
  let st' := (on_key w (KeySearch (Some query)) st).1.1 in
  let found := (fetch_itunes_results w query).1 in
  let err := (fetch_itunes_results w query).2 in
  query <> "" ->
  player st' = AudioPlayer.stop (player st) /\
  mode st' = SEARCH /\
  (truthy err = true ->
   results st' = results st /\ selected_index st' = selected_index st) /\
  (truthy err = false -> found = [] -> results st' = []) /\
  (truthy err = false -> found <> [] ->
   shown st' = found /\ selected_index st' = 0%Z).
Proof.
  cbv zeta. intros Hq. cbn [on_key fst]. unfold perform_search.
  destruct query as [|c q]; [congruence|]. cbn [truthy negb from_option id].
  destruct (fetch_itunes_results w (String c q)) as [res err].
  cbn [fst snd]. destruct (truthy err).
  - split; [reflexivity|]. split; [reflexivity|].
    split; [intros _; split; reflexivity|]. split; discriminate.
  - destruct res as [|x res].
    + split; [reflexivity|]. split; [reflexivity|].
      split; [discriminate|]. split; [reflexivity|]. intros _ H. congruence.
    + split; [reflexivity|]. split; [reflexivity|].
      split; [discriminate|]. split; [discriminate|]. intros _ _.
      split; [|reflexivity].
      apply (shown_assign_results (x :: res)).
Qed.

(** C5, amended.  A new search with a non-empty query stops the player
    and sets the mode to SEARCH.  When the adapter reports an error whose
    text is not empty, the list and the cursor stay as they were; when it
    returns no track and no such error (no result, or an error of empty
    text), the list becomes empty; when it returns tracks, they become the
    list and the cursor is reset to 0. *)
Theorem new_search_effect (w : world) (query : string) (st : MusicTUI) :
  let st' := (on_key w (KeySearch (Some query)) st).1.1 in
  let found := (fetch_itunes_results w query).1 in
  let err := (fetch_itunes_results w query).2 in
  query <> "" ->
  player st' = AudioPlayer.stop (player st) /\
  mode st' = SEARCH /\
  (truthy err = true ->
   results st' = results st /\ selected_index st' = selected_index st) /\
  (truthy err = false -> found = [] -> results st' = []) /\
  (truthy err = false -> found <> [] ->
   shown st' = found /\ selected_index st' = 0%Z) /\
  (forall msg, itunes_get w query = HttpFailed msg -> msg <> "" ->
     results st' = results st /\ selected_index st' = selected_index st) /\
  (itunes_get w query = HttpFailed "" -> results st' = []) /\
  (forall items, itunes_get w query = HttpJson items ->
     itunes_dedup items = [] -> results st' = []) /\
  (forall items, itunes_get w query = HttpJson items ->
     itunes_dedup items <> [] ->
     shown st' = itunes_dedup items /\ selected_index st' = 0%Z).
Proof.
  cbv zeta. intros Hq.
  destruct (new_search_by_result w query st Hq) as (P & M & E & N & F).
  split; [exact P|]. split; [exact M|]. split; [exact E|].
  split; [exact N|]. split; [exact F|].
  unfold fetch_itunes_results in E, N, F.
  split; [|split; [|split]].
  - intros msg Hr Hmsg. rewrite Hr in E. apply E.
    destruct msg; [congruence|reflexivity].
  - intros Hr. rewrite Hr in N. now apply N.
  - intros items Hr Hd. rewrite Hr in N. now apply N.
  - intros items Hr Hd. rewrite Hr in F. now apply F.
Qed.

Lemma new_search_effect_witness :
  let st' := (on_key Demo.w (KeySearch (Some "Daft Punk")) init).1.1 in
  player st' = AudioPlayer.stop (player init) /\ mode st' = SEARCH /\
  shown st' = [Song "One More Time" "Daft Punk" None;
               Song "One More Time (Radio Edit)" "Daft Punk" None;
               Song "Around the World" "Daft Punk" None] /\
  selected_index st' = 0%Z.
Proof.
  cbv zeta.
  destruct (new_search_effect Demo.w "Daft Punk" init)
    as (Hp & Hm & _ & _ & Hfound & _); [discriminate|].
  destruct Hfound as [Hs Hc]; [reflexivity|vm_compute; discriminate|].
  split; [exact Hp|]. split; [exact Hm|]. split; [exact Hs|exact Hc].
Defined.

(** An exception whose text is empty is not taken for an error: the list
    is emptied, and the cursor stays. *)
Example search_error_without_text :
  let s := sys_run boot
             [(Demo.w, Turn (KeySearch (Some "Daft Punk")));
              (Demo.w, Turn KeyDown);
              (Demo.mute, Turn (KeySearch (Some "Daft Punk")))] in
  fetch_itunes_results Demo.mute "Daft Punk" = ([], Some "") /\
  results (tui s) = [] /\ selected_index (tui s) = 1%Z.
Proof. vm_compute. repeat split. Qed.

End Navigation.

(** ** Runs of the model *)

Section Runs.

Import AudioPlayer MusicTUI.

Example split_leftmost : Py.split ":::" "a:::::b:::c" = ["a"; "::b"; "c"].
Proof. reflexivity. Qed.

Example splitlines_crlf :
  Py.splitlines ("a" +:+ String "013" Demo.nl +:+ "b" +:+ Demo.nl) = ["a"; "b"].
Proof. reflexivity. Qed.

Example clean_title_keeps_blank :
  clean_title "One More Time (Radio Edit)" = "one more time ".
Proof. reflexivity. Qed.

Example extract_watch_url :
  extract_video_id "https://www.youtube.com/watch?v=dQw4w9WgXcQ&t=1"
  = Some "dQw4w9WgXcQ".
Proof. reflexivity. Qed.

Example extract_short_url :
  extract_video_id "https://youtu.be/dQw4w9WgXcQ" = Some "dQw4w9WgXcQ".
Proof. reflexivity. Qed.

Example mix_without_seed_and_repeats :
  fetch_youtube_mix Demo.w "AAAAAAAAAAA"
  = [Song "Aerodynamic" "Daft Punk" (Some "BBBBBBBBBBB");
     Song "Digital Love" "Daft Punk" (Some "CCCCCCCCCCC")].
Proof. vm_compute. reflexivity. Qed.

(** A track that ends by itself is reported once. *)
Example natural_end_reported_once :
  snd (run AudioPlayer.init [EPlay Demo.w "u" 0; EExit; EPoll; EPoll; EExit; EPoll])
  = [true; false; false].
Proof. reflexivity. Qed.

(** A stop right before the poll silences it. *)
Example stop_then_poll :
  snd (run AudioPlayer.init [EPlay Demo.w "u" 0; EStop; EPoll]) = [false].
Proof. reflexivity. Qed.

(** An mpv gone within the grace delay is dropped by [play]; no poll
    reports it. *)
Example early_death_is_not_reported :
  snd (run AudioPlayer.init [EPlay Demo.dead "u" 0; EExit; EPoll]) = [false].
Proof. reflexivity. Qed.

(** In SEARCH mode the end of a track asks for a radio and leaves the
    cursor on the flat list alone. *)
Example search_mode_starts_radio :
  let st := Demo.showing (repeat (Song "t" "a" None) 10) 0 in
  (handle_smart_navigation (Some 0%nat) st).2 = [BgSmart 0%nat] /\
  selected_index (handle_smart_navigation (Some 0%nat) st).1 = 0%Z.
Proof. split; reflexivity. Qed.

(** In RADIO mode, before the end of the mix, the next entry is played. *)
Example radio_mode_advances :
  let st := set_mode RADIO (Demo.showing (repeat (Song "t" "a" None) 3) 0) in
  (handle_smart_navigation (Some 0%nat) st).2 = [BgPlay 1%nat] /\
  selected_index (handle_smart_navigation (Some 0%nat) st).1 = 1%Z.
Proof. split; reflexivity. Qed.

(** Search, play the first track, let it end: the next turn of the loop
    asks for a radio seeded with it, and the radio thread installs the mix
    and plays its first entry. *)
Example search_play_end_radio :
  let s := sys_run boot
             [(Demo.w, Turn (KeySearch (Some "Daft Punk")));
              (Demo.w, Turn KeyEnter);
              (Demo.w, Scheduled 0);
              (Demo.w, ChildExit);
              (Demo.w, Turn KeyErr);
              (Demo.w, Scheduled 0)] in
  mode (tui s) = RADIO /\
  shown (tui s) = [Song "Aerodynamic" "Daft Punk" (Some "BBBBBBBBBBB");
                   Song "Digital Love" "Daft Punk" (Some "CCCCCCCCCCC")] /\
  selected_index (tui s) = 0%Z /\
  threads s = [BgPlay 3%nat].
Proof. vm_compute. repeat split. Qed.

End Runs.

(** * Further properties of the code *)

(** ** More on the adapters *)

Section AdaptersMore.

Lemma fold_left_keeps_in {A B} (P : A -> Prop) (f : A -> B -> A) (L : list B) :
  (forall a x, In x L -> P a -> P (f a x)) ->
  forall l, incl l L -> forall a, P a -> P (fold_left f l a).
Proof.
  intros Hf. induction l as [|x l IH]; intros Hl a Ha; cbn; [exact Ha|].
  apply IH.
  - intros y Hy. apply Hl. now right.
  - apply Hf; [apply Hl; now left|exact Ha].
Qed.

Lemma itunes_step_grows acc item :
  exists ext,
    (itunes_step acc item).1 = acc.1 ++ ext /\
    sublist ext [itunes_song item] /\
    (forall k, k ∈ acc.2 -> k ∈ (itunes_step acc item).2) /\
    itunes_key (track (itunes_song item)) (artist (itunes_song item))
      ∈ (itunes_step acc item).2.
Proof.
  destruct acc as [out seen]. unfold itunes_step, itunes_song. cbn [fst snd].
  case_bool_decide as Hin; cbn [fst snd].
  - exists []. rewrite app_nil_r. repeat split; auto. apply sublist_nil_l.
  - eexists. split; [reflexivity|]. split; [reflexivity|].
    split; [intros k Hk|]; apply elem_of_union; [now right|left].
    now apply elem_of_singleton.
Qed.

Lemma itunes_fold_grows items : forall acc,
  exists ext,
    (fold_left itunes_step items acc).1 = acc.1 ++ ext /\
    sublist ext (map itunes_song items) /\
    (forall k, k ∈ acc.2 -> k ∈ (fold_left itunes_step items acc).2) /\
    (forall item, In item items ->
       itunes_key (track (itunes_song item)) (artist (itunes_song item))
         ∈ (fold_left itunes_step items acc).2).
Proof.
  induction items as [|item items IH]; intros acc; cbn [fold_left map].
  - exists []. rewrite app_nil_r. repeat split; auto. intros item [].
  - destruct (itunes_step_grows acc item) as (e1 & E1 & S1 & M1 & K1).
    destruct (IH (itunes_step acc item)) as (e2 & E2 & S2 & M2 & K2).
    exists (e1 ++ e2). rewrite E2, E1, app_assoc. split; [reflexivity|].
    split; [|split].
    + change (itunes_song item :: map itunes_song items)
        with ([itunes_song item] ++ map itunes_song items).
      now apply sublist_app.
    + auto.
    + intros it [<-|Hit]; auto.
Qed.

(** The tracks kept by [fetch_itunes_results] are entries of the answer, in
    the provider's order, and every entry of the answer has its key among
    the keys of the tracks kept. *)
Theorem itunes_dedup_in_order (items : list itunes_item) :
  sublist (itunes_dedup items) (map itunes_song items) /\
  (forall item, In item items ->
     exists s, In s (itunes_dedup items) /\
               itunes_key (track s) (artist s)
               = itunes_key (track (itunes_song item))
                   (artist (itunes_song item))).
Proof.
  unfold itunes_dedup.
  destruct (itunes_fold_grows items ([], ∅)) as (ext & E & S & _ & K).
  cbn [fst app] in E. rewrite E. split; [exact S|].
  intros item Hitem. specialize (K item Hitem).
  assert (itunes_inv (fold_left itunes_step items ([], ∅))) as [Hseen _].
  { apply fold_left_keeps; [intros; now apply itunes_step_inv|].
    split; cbn; [|constructor]. intros k. rewrite elem_of_empty. tauto. }
  apply Hseen in K. rewrite E in K. apply in_map_iff in K as (s & Hs & Hin).
  exists s. split; [exact Hin|exact Hs].
Qed.

Lemma mix_step_lines video_id0 (L : list string) acc line :
  In line L ->
  Forall (fun s => exists l, In l L /\ mix_line s l) acc.1 ->
  Forall (fun s => exists l, In l L /\ mix_line s l)
    (mix_step video_id0 acc line).1.
Proof.
  destruct acc as [out seen]. intros Hl Hacc. unfold mix_step.
  destruct (negb (Py.contains ":::" line)); [exact Hacc|].
  destruct (length (Py.split ":::" line) <? 3)%nat; [exact Hacc|].
  destruct (Py.split ":::" line) as [|vid_id [|title [|uploader rest]]] eqn:E;
    try exact Hacc.
  destruct (String.eqb vid_id video_id0); [exact Hacc|].
  case_bool_decide; [exact Hacc|]. cbn [fst] in *.
  apply Forall_app. split; [exact Hacc|]. constructor; [|constructor].
  exists line. split; [exact Hl|]. exists vid_id, rest. now rewrite E.
Qed.

(** Every track returned by [fetch_youtube_mix] is read off a line of
    yt-dlp's output: its identifier, title and uploader are the first
    three fields of that line, so every track of a mix carries an
    identifier. *)
Theorem youtube_mix_from_lines (w : world) (seed_id : string) :
  Forall (fun s =>
            is_Some (video_id s) /\
            exists output line,
              ytdlp_mix w (mix_url seed_id) = Some output /\
              In line (Py.splitlines output) /\ mix_line s line)
    (fetch_youtube_mix w seed_id).
Proof.
  unfold fetch_youtube_mix.
  destruct (ytdlp_mix w (mix_url seed_id)) as [output|]; [|constructor].
  unfold parse_mix.
  assert (Forall (fun s => exists l, In l (Py.splitlines output) /\ mix_line s l)
            (fold_left (mix_step seed_id) (Py.splitlines output) ([], ∅)).1)
    as H.
  { apply (fold_left_keeps_in
             (fun acc => Forall (fun s => exists l,
                                   In l (Py.splitlines output) /\ mix_line s l)
                           acc.1) _ (Py.splitlines output)).
    - intros a x Hx Ha. now apply mix_step_lines.
    - intros x Hx. exact Hx.
    - constructor. }
  eapply Forall_impl; [exact H|]. cbn beta.
  intros s (line & Hline & Hs). split.
  - destruct Hs as (vid & rest & _ & ->). now exists vid.
  - exists output, line. auto.
Qed.

End AdaptersMore.

(** ** The identifier of a locator *)

Section VideoId.

Lemma take_id_some n : forall s r,
  take_id n s = Some r ->
  String.length r = n /\ all_id_chars r = true /\ Py.startswith r s = true.
Proof.
  induction n as [|n IH]; intros s r H; cbn in H.
  - injection H as <-. repeat split.
  - destruct s as [|c s]; [discriminate|].
    destruct (is_id_char c) eqn:Ec; [|discriminate].
    destruct (take_id n s) as [r'|] eqn:Er; [|discriminate].
    injection H as <-. destruct (IH s r' Er) as (Hl & Ha & Hs).
    cbn [String.length all_id_chars Py.startswith].
    rewrite Ec, Ha, Hs, Hl, Ascii.eqb_refl. auto.
Qed.

Lemma take_id_all id rest :
  all_id_chars id = true ->
  take_id (String.length id) (id +:+ rest) = Some id.
Proof.
  induction id as [|c id IH]; [reflexivity|].
  cbn [all_id_chars String.length String.append take_id].
  intros H. apply andb_prop in H as [Hc Hid].
  change (String c id +:+ rest) with (String c (id +:+ rest)).
  cbn iota. now rewrite Hc, IH.
Qed.

Lemma startswith_append lit : forall s r,
  Py.startswith lit s = true ->
  Py.startswith r (drop_chars (String.length lit) s) = true ->
  Py.startswith (lit +:+ r) s = true.
Proof.
  induction lit as [|a lit IH]; intros s r Hl Hr; [exact Hr|].
  destruct s as [|c s]; [discriminate|].
  change (String a lit +:+ r) with (String a (lit +:+ r)).
  cbn [Py.startswith String.length drop_chars] in *.
  destruct (Ascii.eqb a c); [apply IH; assumption|discriminate].
Qed.

Lemma contains_here sep s : Py.startswith sep s = true -> Py.contains sep s = true.
Proof. intros H. destruct s; cbn in *; now rewrite H. Qed.

Lemma contains_later sep c s :
  Py.contains sep s = true -> Py.contains sep (String c s) = true.
Proof. intros H. cbn [Py.contains]. rewrite H. apply orb_true_r. Qed.

Lemma search_id_some lit : forall s id,
  search_id lit s = Some id ->
  String.length id = 11%nat /\ all_id_chars id = true /\
  Py.contains (lit +:+ id) s = true.
Proof.
  induction s as [|c s IH]; intros id H.
  - cbn in H. destruct (Py.startswith lit ""); [|discriminate].
    destruct lit; discriminate.
  - cbn [search_id] in H.
    destruct (Py.startswith lit (String c s)) eqn:El.
    + destruct (take_id 11 (drop_chars (String.length lit) (String c s)))
        as [r|] eqn:Er.
      * injection H as <-. destruct (take_id_some _ _ _ Er) as (H1 & H2 & H3).
        repeat split; auto. apply contains_here. now apply startswith_append.
      * destruct (IH id H) as (H1 & H2 & H3). repeat split; auto.
        now apply contains_later.
    + destruct (IH id H) as (H1 & H2 & H3). repeat split; auto.
      now apply contains_later.
Qed.

Lemma append_cons c s t : String c s +:+ t = String c (s +:+ t).
Proof. reflexivity. Qed.

Lemma append_nil t : "" +:+ t = t.
Proof. reflexivity. Qed.

Lemma search_id_skip lit c s :
  Py.startswith lit (String c s) = false ->
  search_id lit (String c s) = search_id lit s.
Proof. intros H. cbn [search_id]. now rewrite H. Qed.

Lemma search_id_hit lit s id :
  Py.startswith lit s = true ->
  take_id 11 (drop_chars (String.length lit) s) = Some id ->
  search_id lit s = Some id.
Proof. intros Hl Ht. destruct s; cbn [search_id]; now rewrite Hl, Ht. Qed.

(** Whatever [extract_video_id] returns is eleven characters of
    [[a-zA-Z0-9_-]] that stand in the locator right after ["v="] or
    ["youtu.be/"]. *)
Theorem extract_video_id_shape (url id : string) :
  extract_video_id url = Some id ->
  String.length id = 11%nat /\ all_id_chars id = true /\
  (Py.contains ("v=" +:+ id) url = true \/
   Py.contains ("youtu.be/" +:+ id) url = true).
Proof.
  unfold extract_video_id. intros H.
  destruct (search_id "v=" url) as [r|] eqn:E.
  - injection H as <-. destruct (search_id_some _ _ _ E) as (H1 & H2 & H3).
    auto.
  - destruct (search_id_some _ _ _ H) as (H1 & H2 & H3). auto.
Qed.

Lemma extract_video_id_shape_witness :
  String.length "dQw4w9WgXcQ" = 11%nat /\ all_id_chars "dQw4w9WgXcQ" = true.
Proof.
  destruct (extract_video_id_shape "https://youtu.be/dQw4w9WgXcQ?t=3"
              "dQw4w9WgXcQ") as (H1 & H2 & _); [reflexivity|].
  split; [exact H1|exact H2].
Defined.

(** The locator that [_bg] builds from a track's ['video_id'] gives that
    identifier back, whatever follows it. *)
Theorem extract_video_id_of_watch_url (id rest : string) :
  String.length id = 11%nat -> all_id_chars id = true ->
  extract_video_id ("https://www.youtube.com/watch?v=" +:+ id +:+ rest)
  = Some id.
Proof.
  intros Hlen Hid. unfold extract_video_id.
  rewrite !append_cons, append_nil.
  repeat (rewrite search_id_skip by reflexivity).
  rewrite (search_id_hit "v=" _ id); [reflexivity|reflexivity|].
  simpl drop_chars. rewrite <- Hlen. now apply take_id_all.
Qed.

Lemma extract_video_id_of_watch_url_witness :
  extract_video_id
    ("https://www.youtube.com/watch?v=" +:+ "BBBBBBBBBBB" +:+ "&list=RDAAAAAAAAAAA")
  = Some "BBBBBBBBBBB".
Proof.
  apply (extract_video_id_of_watch_url "BBBBBBBBBBB" "&list=RDAAAAAAAAAAA");
    reflexivity.
Defined.

End VideoId.

(** ** More on the artist cleaner *)

Section CleanerMore.

Lemma clean_fold_before_any s :
  fold_left clean_step separators s = before_any separators s.
Proof.
  unfold separators. cbn [fold_left]. rewrite !clean_step_before.
  rewrite (before_any_cons "&" ["feat."; "Feat."; "ft."; ","; " x "]);
    [|reflexivity].
  rewrite (before_any_cons "feat." ["Feat."; "ft."; ","; " x "]);
    [|reflexivity].
  rewrite (before_any_cons "Feat." ["ft."; ","; " x "]); [|reflexivity].
  rewrite (before_any_cons "ft." [","; " x "]); [|reflexivity].
  rewrite (before_any_cons "," [" x "]); [|reflexivity].
  reflexivity.
Qed.

Lemma startswith_trans u : forall p s,
  Py.startswith u p = true -> Py.startswith p s = true ->
  Py.startswith u s = true.
Proof.
  induction u as [|a u IH]; intros p s Hu Hp; [reflexivity|].
  destruct p as [|b p]; [discriminate|]. destruct s as [|c s]; [discriminate|].
  cbn in *. destruct (Ascii.eqb_spec a b) as [->|]; [|discriminate].
  destruct (Ascii.eqb b c); [eauto|discriminate].
Qed.

Lemma contains_prefix sep p : forall s,
  Py.startswith p s = true -> Py.contains sep p = true ->
  Py.contains sep s = true.
Proof.
  induction p as [|c p IH]; intros s Hp Hc.
  - cbn in Hc. rewrite orb_false_r in Hc. apply contains_here.
    destruct sep; [reflexivity|discriminate].
  - destruct s as [|d s]; [discriminate|]. cbn [Py.startswith] in Hp.
    destruct (Ascii.eqb_spec c d) as [->|]; [|discriminate].
    cbn [Py.contains] in Hc. apply orb_prop in Hc as [Hc|Hc].
    + apply contains_here. apply (startswith_trans _ (String d p)); [exact Hc|].
      cbn. now rewrite Ascii.eqb_refl.
    + apply contains_later. now apply IH.
Qed.

Lemma contains_lstrip sep s :
  Py.contains sep (Py.lstrip s) = true -> Py.contains sep s = true.
Proof.
  induction s as [|c s IH]; [auto|]. cbn [Py.lstrip].
  destruct (Py.isspace c); [|auto]. intros H. apply contains_later. auto.
Qed.

Lemma rstrip_prefix s : Py.startswith (Py.rstrip s) s = true.
Proof.
  induction s as [|c s IH]; [reflexivity|]. cbn [Py.rstrip].
  destruct (Py.rstrip s) as [|d r].
  - destruct (Py.isspace c); [reflexivity|]. cbn. now rewrite Ascii.eqb_refl.
  - cbn [Py.startswith]. now rewrite Ascii.eqb_refl.
Qed.

Lemma before_any_prefix seps s : Py.startswith (before_any seps s) s = true.
Proof.
  induction s as [|c s IH]; [reflexivity|]. cbn [before_any].
  destruct (existsb _ seps); [reflexivity|].
  cbn [Py.startswith]. now rewrite Ascii.eqb_refl.
Qed.

Lemma before_any_clear seps sep : forall s,
  In sep seps -> sep <> "" ->
  Py.contains sep (before_any seps s) = false.
Proof.
  intros s Hin Hne. induction s as [|c s IH].
  - destruct sep; [congruence|reflexivity].
  - cbn [before_any].
    destruct (existsb (fun x => Py.startswith x (String c s)) seps) eqn:E.
    + destruct sep; [congruence|reflexivity].
    + cbn [Py.contains]. rewrite IH, orb_false_r.
      destruct (Py.startswith sep (String c (before_any seps s))) eqn:Es;
        [|reflexivity].
      assert (Py.startswith sep (String c s) = true) as Hs.
      { apply (startswith_trans _ (String c (before_any seps s))); [exact Es|].
        cbn. rewrite Ascii.eqb_refl. apply before_any_prefix. }
      assert (existsb (fun x => Py.startswith x (String c s)) seps = true) as Ht.
      { apply existsb_exists. exists sep. auto. }
      congruence.
Qed.

Lemma rstrip_tail c s :
  Py.rstrip (String c s) = String c s -> Py.rstrip s = s.
Proof.
  cbn [Py.rstrip]. destruct (Py.rstrip s) as [|d r].
  - destruct (Py.isspace c); [discriminate|]. now intros [= <-].
  - now intros [= <-].
Qed.

Lemma rstrip_lstrip s :
  Py.rstrip s = s -> Py.rstrip (Py.lstrip s) = Py.lstrip s.
Proof.
  induction s as [|c s IH]; [auto|]. intros H. cbn [Py.lstrip].
  destruct (Py.isspace c); [|exact H]. apply IH. now apply rstrip_tail in H.
Qed.

Lemma rstrip_idem s : Py.rstrip (Py.rstrip s) = Py.rstrip s.
Proof.
  induction s as [|c s IH]; [reflexivity|]. cbn [Py.rstrip].
  destruct (Py.rstrip s) as [|d r] eqn:E.
  - destruct (Py.isspace c) eqn:Ec; [reflexivity|]. cbn. now rewrite Ec.
  - cbn [Py.rstrip] in IH |- *. now rewrite IH.
Qed.

Lemma lstrip_idem s : Py.lstrip (Py.lstrip s) = Py.lstrip s.
Proof.
  induction s as [|c s IH]; [reflexivity|]. cbn [Py.lstrip].
  destruct (Py.isspace c) eqn:Ec; [exact IH|]. cbn [Py.lstrip]. now rewrite Ec.
Qed.

Lemma strip_idem s : Py.strip (Py.strip s) = Py.strip s.
Proof.
  unfold Py.strip. rewrite (rstrip_lstrip (Py.rstrip s)) by apply rstrip_idem.
  apply lstrip_idem.
Qed.

Lemma clean_clear s sep :
  In sep separators -> Py.contains sep (clean_artist_name s) = false.
Proof.
  intros Hin. unfold clean_artist_name. rewrite clean_fold_before_any.
  destruct (Py.contains sep (Py.strip (before_any separators s))) eqn:E;
    [|reflexivity].
  unfold Py.strip in E. apply contains_lstrip in E.
  apply (contains_prefix _ _ _ (rstrip_prefix _)) in E.
  rewrite before_any_clear in E; [discriminate|exact Hin|].
  unfold separators in Hin. cbn in Hin.
  intuition (subst; discriminate).
Qed.

Lemma clean_fold_unchanged r (l : list string) :
  (forall sep, In sep l -> Py.contains sep r = false) ->
  fold_left clean_step l r = r.
Proof.
  induction l as [|sep l IH]; intros H; [reflexivity|]. cbn [fold_left].
  unfold clean_step at 2. rewrite (H sep) by now left.
  apply IH. intros x Hx. apply H. now right.
Qed.

(** A cleaned artist name holds none of the separators and no blank at
    either end, and cleaning it again changes nothing. *)
Theorem clean_artist_name_is_clean (artist_raw : string) :
  Forall (fun sep => Py.contains sep (clean_artist_name artist_raw) = false)
    separators /\
  Py.strip (clean_artist_name artist_raw) = clean_artist_name artist_raw /\
  clean_artist_name (clean_artist_name artist_raw)
  = clean_artist_name artist_raw.
Proof.
  split; [|split].
  - apply List.Forall_forall. intros sep Hsep. now apply clean_clear.
  - unfold clean_artist_name. apply strip_idem.
  - unfold clean_artist_name at 1.
    rewrite clean_fold_unchanged by (intros; now apply clean_clear).
    unfold clean_artist_name. apply strip_idem.
Qed.

End CleanerMore.

(** ** What each operation leaves alone *)

Section Frames.

Import MusicTUI.

Lemma play_selection_frame (o : option loc) (st : MusicTUI) :
  same_but_status st (play_selection o st).1.
Proof.
  unfold play_selection, same_but_status.
  repeat break_match; cbn; repeat split; congruence.
Qed.

Lemma play_selection_started (st : MusicTUI) :
  (play_selection None st).2 = [] \/
  exists l, In l (results st) /\ (play_selection None st).2 = [BgPlay l].
Proof.
  unfold play_selection.
  destruct (results st) as [|x r] eqn:E; [now left|].
  destruct (_ <=? _)%Z; [now left|].
  destruct (getitem (x :: r) (selected_index st)) as [l|] eqn:G; [|now left].
  right. exists l. split; [|reflexivity].
  unfold getitem in G. apply list_elem_of_In.
  destruct (0 <=? selected_index st)%Z;
    [|destruct (_ <=? selected_index st)%Z; [|discriminate]];
    eapply list_elem_of_lookup_2; exact G.
Qed.

Lemma handle_smart_navigation_frame (o : option loc) (st : MusicTUI) :
  same_but_cursor st (handle_smart_navigation o st).1.
Proof.
  unfold handle_smart_navigation, start_smart_radio, same_but_cursor.
  destruct (match o with Some l => Some l | None => _ end);
    [|repeat split].
  destruct (mode st) eqn:Em; [repeat split; cbn; congruence|].
  destruct (_ <? _)%Z; [|repeat split; cbn; congruence].
  destruct (play_selection_frame None
              (set_selected_index (selected_index st + 1) st))
    as (H1 & H2 & H3 & _ & H5 & H6 & H7).
  repeat split; cbn in *; congruence.
Qed.

Lemma handle_smart_navigation_started (o : option loc) (st : MusicTUI) :
  (handle_smart_navigation o st).2 = [] \/
  (exists l, In l (results st) /\
             (handle_smart_navigation o st).2 = [BgPlay l]) \/
  (exists l, (o = Some l \/ (o = None /\ current_song (player st) = Some l)) /\
             (handle_smart_navigation o st).2 = [BgSmart l]).
Proof.
  unfold handle_smart_navigation, start_smart_radio.
  assert (forall l, (o = Some l \/ (o = None /\ current_song (player st) = Some l))
                    <-> match o with Some l => Some l | None => current_song (player st) end
                        = Some l) as Hprev.
  { intros l. destruct o as [l0|]; split.
    - intros [H|[H _]]; [exact H|discriminate].
    - intros H. left. exact H.
    - intros [H|[_ H]]; [discriminate|exact H].
    - intros H. right. split; [reflexivity|exact H]. }
  destruct (match o with Some l => Some l | None => _ end) as [prev|];
    [|now left].
  destruct (mode st); [right; right; exists prev; split; [now apply Hprev|reflexivity]|].
  destruct (_ <? _)%Z;
    [|right; right; exists prev; split; [now apply Hprev|reflexivity]].
  destruct (play_selection_started
              (set_selected_index (selected_index st + 1) st)) as [H|H];
    [now left|right; left; exact H].
Qed.

Lemma perform_search_frame (w : world) (typed : option string)
  (st : MusicTUI) :
  player (perform_search w typed st) = player st /\
  autoplay (perform_search w typed st) = autoplay st /\
  (mode (perform_search w typed st) = mode st \/
   (mode (perform_search w typed st) = SEARCH /\ truthy typed = true)).
Proof.
  unfold perform_search. destruct (truthy typed); cbn [negb]; [|auto].
  destruct (fetch_itunes_results w _) as [res err].
  destruct (truthy err); [cbn; auto|]. destruct res; cbn; auto.
Qed.

Lemma bg_smart_frame (w : world) (prev_song : loc) (st : MusicTUI) :
  player (bg_smart w prev_song st).1.1 = player st /\
  autoplay (bg_smart w prev_song st).1.1 = autoplay st /\
  (mode (bg_smart w prev_song st).1.1 = mode st \/
   mode (bg_smart w prev_song st).1.1 = RADIO).
Proof.
  unfold bg_smart.
  assert (let r := smart_by_id w prev_song st in
          player r.1.1 = player st /\ autoplay r.1.1 = autoplay st /\
          (mode r.1.1 = mode st \/ mode r.1.1 = RADIO)) as H1.
  { unfold smart_by_id. repeat break_match; cbn; auto. }
  destruct (smart_by_id w prev_song st) as [[st1 found] a1].
  cbn in H1. destruct H1 as (P1 & A1 & M1).
  assert (let r := smart_by_artist w prev_song st1 in
          player r.1.1 = player st1 /\ autoplay r.1.1 = autoplay st1 /\
          (mode r.1.1 = mode st1 \/ mode r.1.1 = RADIO)) as H2.
  { unfold smart_by_artist.
    destruct (fetch_itunes_results w _) as [[|x res] err]; cbn; auto. }
  destruct found; cbn [negb].
  - destruct (play_selection_frame None (set_loading false st1))
      as (Q1 & _ & _ & _ & Q5 & Q6 & _).
    destruct (play_selection None (set_loading false st1)) as [st2 ts].
    cbn in *. repeat split; try congruence;
      try (destruct M1; [left|right]; congruence).
  - destruct (smart_by_artist w prev_song st1) as [[st2 found] a2].
    cbn in H2. destruct H2 as (P2 & A2 & M2).
    assert (mode st2 = mode st \/ mode st2 = RADIO) as M
        by (destruct M1, M2; [left|right|right|right]; congruence).
    destruct found.
    + destruct (play_selection_frame None (set_loading false st2))
        as (Q1 & _ & _ & _ & Q5 & Q6 & _).
      destruct (play_selection None (set_loading false st2)) as [st3 ts].
      cbn in *. repeat split; try congruence;
        try (destruct M; [left|right]; congruence).
    + cbn. repeat split; try congruence; try exact M.
Qed.

Lemma bg_play_frame (w : world) (selected : loc) (st : MusicTUI) :
  results (bg_play w selected st).1 = results st /\
  mode (bg_play w selected st).1 = mode st /\
  autoplay (bg_play w selected st).1 = autoplay st /\
  search_term (bg_play w selected st).1 = search_term st /\
  (player (bg_play w selected st).1 = player st \/
   exists url, player (bg_play w selected st).1
               = AudioPlayer.play w url selected (player st)).
Proof.
  unfold bg_play.
  match goal with
  | |- context [let '(url, st0) := ?X in _] =>
      assert (same_but_status st (set_heap (heap st) X.2) /\
              player X.2 = player st /\ results X.2 = results st /\
              mode X.2 = mode st /\ autoplay X.2 = autoplay st /\
              search_term X.2 = search_term st) as H;
      [|destruct X as [url st1]]
  end.
  { repeat break_match; cbn; unfold same_but_status; cbn; repeat split. }
  cbn [snd] in H. destruct H as (_ & P & R & M & A & T).
  destruct (truthy url).
  - destruct (_ && _).
    + match goal with
      | |- context [handle_smart_navigation ?o ?s] =>
          destruct (handle_smart_navigation_frame o s)
            as (H1 & _ & H3 & H4 & H5 & H6)
      end.
      fields. split; [congruence|]. split; [congruence|].
      split; [congruence|]. split; [congruence|].
      right. eexists. rewrite H1, P. reflexivity.
    + fields. split; [congruence|]. split; [congruence|].
      split; [congruence|]. split; [congruence|].
      right. eexists. rewrite P. reflexivity.
  - destruct (autoplay _) eqn:Ea.
    + match goal with
      | |- context [handle_smart_navigation ?o ?s] =>
          destruct (handle_smart_navigation_frame o s)
            as (H1 & _ & H3 & H4 & H5 & H6)
      end.
      fields. split; [congruence|]. split; [congruence|].
      split; [congruence|]. split; [congruence|]. left. congruence.
    + fields. split; [congruence|]. split; [congruence|].
      split; [congruence|]. split; [congruence|]. left. congruence.
Qed.

Lemma on_key_frame (w : world) (k : key) (st : MusicTUI) :
  player (on_key w k st).1.1 = player_after_key k (player st) /\
  (mode (on_key w k st).1.1 = mode st \/
   (mode (on_key w k st).1.1 = SEARCH /\
    exists q, k = KeySearch (Some q) /\ q <> "")).
Proof.
  destruct k; cbn [on_key fst player_after_key]; try (split; [reflexivity|now left]).
  - destruct (0 <? _)%Z; split; try reflexivity; now left.
  - destruct (_ <? _)%Z; split; try reflexivity; now left.
  - destruct (perform_search_frame w typed
                (set_player (AudioPlayer.stop (player st)) st))
      as (P & _ & M).
    split; [exact P|]. destruct M as [M|[M T]]; [now left|right].
    split; [exact M|]. destruct typed as [[|c q]|]; try discriminate.
    eexists. split; [reflexivity|discriminate].
  - destruct (play_selection_frame None st) as (P & _ & _ & _ & M & _).
    split; [exact P|now left].
  - unfold skip_next. destruct (current_song (player st)).
    + match goal with
      | |- context [handle_smart_navigation ?o ?s] =>
          destruct (handle_smart_navigation_frame o s) as (P & _ & _ & M & _)
      end.
      split; [exact P|now left].
    + destruct (play_selection_frame None st) as (P & _ & _ & _ & M & _).
      split; [exact P|now left].
  - unfold skip_prev. destruct (0 <? _)%Z; [|split; [reflexivity|now left]].
    match goal with
    | |- context [play_selection ?o ?s] =>
        destruct (play_selection_frame o s) as (P & _ & _ & _ & M & _)
    end.
    split; [exact P|now left].
Qed.

Lemma loop_turn_frame (w : world) (k : key) (st : MusicTUI) :
  player (loop_turn w k st).1.1
  = player_after_key k (AudioPlayer.check_status (player st)).1 /\
  (mode (loop_turn w k st).1.1 = mode st \/
   (mode (loop_turn w k st).1.1 = SEARCH /\
    exists q, k = KeySearch (Some q) /\ q <> "")).
Proof.
  unfold loop_turn.
  destruct (AudioPlayer.check_status (player st)) as [p ended]. cbn [fst].
  assert (let r := if ended && autoplay (set_player p st)
                   then handle_smart_navigation None (set_player p st)
                   else (set_player p st, []) in
          player r.1 = p /\ mode r.1 = mode st) as H.
  { destruct (_ && _); [|now split].
    destruct (handle_smart_navigation_frame None (set_player p st))
      as (P & _ & _ & M & _). now split. }
  destruct (if ended && _ then _ else _) as [st1 ts1].
  cbn in H. destruct H as [P M].
  destruct (on_key_frame w k st1) as [P2 M2].
  destruct (on_key w k st1) as [[st2 ts2] go_on]. cbn in *.
  rewrite P in P2. rewrite M in M2. auto.
Qed.

End Frames.

(** ** What holds in every state of the program *)

Section Invariants.

Import MusicTUI.

Lemma player_ok_stop p : player_ok (AudioPlayer.stop p).
Proof. player_ok_now. Qed.

Lemma player_ok_play w url l p : player_ok (AudioPlayer.play w url l p).
Proof.
  unfold AudioPlayer.play. destruct (mpv_spawn w url); player_ok_now.
Qed.

Lemma player_ok_toggle p :
  player_ok p -> player_ok (AudioPlayer.toggle_pause p).
Proof.
  unfold AudioPlayer.toggle_pause. intros H.
  destruct (is_playing p) eqn:E; [|exact H].
  unfold player_ok in *. cbn. now rewrite E in H.
Qed.

Lemma player_ok_check p :
  player_ok p -> player_ok (AudioPlayer.check_status p).1.
Proof.
  unfold AudioPlayer.check_status. intros H.
  destruct (process p) as [[|]|] eqn:E; [exact H| |exact H].
  player_ok_now.
Qed.

Lemma player_ok_exits p :
  player_ok p -> player_ok (AudioPlayer.child_exits p).
Proof.
  unfold AudioPlayer.child_exits. intros H.
  destruct (process p) as [[|]|] eqn:E; [|exact H|exact H].
  destruct H as [H1 H2]. rewrite E in H1, H2. split; cbn.
  - split; [discriminate|]. intros _. apply H1. discriminate.
  - intros _. apply H2. discriminate.
Qed.

Lemma player_ok_after_key k p :
  player_ok p -> player_ok (player_after_key k p).
Proof.
  intros H. destruct k; cbn; auto using player_ok_stop, player_ok_toggle.
  destruct (current_song p); auto using player_ok_stop.
Qed.

Lemma player_ok_reachable (s : system) :
  reachable s -> player_ok (player (tui s)).
Proof.
  induction 1 as [|w ev s Hs IH]; [player_ok_now|].
  unfold sys_step. destruct (negb (looping s)); [exact IH|].
  destruct ev as [k| |i].
  - destruct (loop_turn_frame w k (tui s)) as [P _].
    destruct (loop_turn w k (tui s)) as [[st ts] go_on]. cbn in *.
    rewrite P. now apply player_ok_after_key, player_ok_check.
  - cbn. now apply player_ok_exits.
  - destruct (threads s !! i) as [[l|l]|]; [| |exact IH].
    + destruct (bg_play_frame w l (tui s)) as (_ & _ & _ & _ & [P|[url P]]).
      all: destruct (bg_play w l (tui s)) as [st ts]; cbn in *; rewrite P.
      * exact IH.
      * apply player_ok_play.
    + destruct (bg_smart_frame w l (tui s)) as (P & _).
      destruct (bg_smart w l (tui s)) as [[st ts] asked]. cbn in *.
      now rewrite P.
Qed.

(** In every state the program reaches the status bar can be drawn: the
    current track is there whenever [is_playing] asks for its title. *)
Theorem status_bar_drawn (s : system) :
  reachable s -> is_Some (Screen.status_bar (tui s)).
Proof.
  intros H. destruct (player_ok_reachable s H) as [H1 H2].
  unfold Screen.status_bar. destruct (loading (tui s)); [eauto|].
  destruct (is_playing (player (tui s))) eqn:E; [|eauto].
  destruct (current_song (player (tui s))) eqn:C; [eauto|].
  destruct H2 as [_ H2]; [now apply H1|]. congruence.
Qed.

Lemma status_bar_drawn_witness :
  is_Some
    (Screen.status_bar
       (tui (sys_run boot
               [(Demo.w, Turn (KeySearch (Some "Daft Punk")));
                (Demo.w, Turn KeyEnter);
                (Demo.w, Scheduled 0)]))).
Proof.
  apply status_bar_drawn. cbn [sys_run].
  repeat apply reach_step. apply reach_boot.
Defined.

Lemma on_key_autoplay (w : world) (k : key) (st : MusicTUI) :
  autoplay (on_key w k st).1.1 = autoplay st \/ k = KeyAutoplay.
Proof.
  destruct k; cbn [on_key fst]; try (now left); try (now right).
  - now destruct (0 <? _)%Z; left.
  - now destruct (_ <? _)%Z; left.
  - left. now destruct (perform_search_frame w typed
                          (set_player (AudioPlayer.stop (player st)) st))
      as (_ & A & _).
  - left. now destruct (play_selection_frame None st) as (_ & _ & _ & _ & _ & A & _).
  - left. unfold skip_next. destruct (current_song (player st)).
    + match goal with
      | |- context [handle_smart_navigation ?o ?s] =>
          now destruct (handle_smart_navigation_frame o s) as (_ & _ & _ & _ & A & _)
      end.
    + now destruct (play_selection_frame None st) as (_ & _ & _ & _ & _ & A & _).
  - left. unfold skip_prev. destruct (0 <? _)%Z; [|reflexivity].
    match goal with
    | |- context [play_selection ?o ?s] =>
        now destruct (play_selection_frame o s) as (_ & _ & _ & _ & _ & A & _)
    end.
Qed.

(** What can change the mode and the autoplay flag.  One happening leaves
    the mode as it was, or is a search with a non-empty query and sets it
    to SEARCH, or is a run of [_bg_smart] and sets it to RADIO; and it
    leaves the autoplay flag as it was unless it is the autoplay key. *)
Theorem mode_and_autoplay_changes (w : world) (ev : happening) (s : system) :
  (mode (tui (sys_step w ev s)) = mode (tui s) \/
   (mode (tui (sys_step w ev s)) = SEARCH /\
    exists q, ev = Turn (KeySearch (Some q)) /\ q <> "") \/
   (mode (tui (sys_step w ev s)) = RADIO /\
    exists i l, ev = Scheduled i /\ threads s !! i = Some (BgSmart l))) /\
  (autoplay (tui (sys_step w ev s)) = autoplay (tui s) \/
   ev = Turn KeyAutoplay).
Proof.
  unfold sys_step. destruct (negb (looping s)); [split; now left|].
  destruct ev as [k| |i].
  - destruct (loop_turn_frame w k (tui s)) as [_ M].
    assert (autoplay (loop_turn w k (tui s)).1.1 = autoplay (tui s) \/
            k = KeyAutoplay) as A.
    { unfold loop_turn.
      destruct (AudioPlayer.check_status (player (tui s))) as [p ended].
      assert (autoplay (if ended && autoplay (set_player p (tui s))
                        then handle_smart_navigation None (set_player p (tui s))
                        else (set_player p (tui s), [])).1
              = autoplay (tui s)) as A1.
      { destruct (_ && _); [|reflexivity].
        now destruct (handle_smart_navigation_frame None (set_player p (tui s)))
          as (_ & _ & _ & _ & A & _). }
      destruct (if ended && _ then _ else _) as [st1 ts1]. cbn [fst] in A1.
      destruct (on_key_autoplay w k st1) as [A2|A2]; [|now right].
      destruct (on_key w k st1) as [[st2 ts2] go_on]. cbn in *. left.
      congruence. }
    destruct (loop_turn w k (tui s)) as [[st ts] go_on]. cbn in *. split.
    + destruct M as [M|[M (q & -> & Hq)]]; [now left|right; left].
      split; [exact M|]. now exists q.
    + destruct A as [A| ->]; [now left|now right].
  - split; now left.
  - destruct (threads s !! i) as [[l|l]|] eqn:E; [| |split; now left].
    + destruct (bg_play_frame w l (tui s)) as (_ & M & A & _).
      destruct (bg_play w l (tui s)) as [st ts]. cbn in *. split; now left.
    + destruct (bg_smart_frame w l (tui s)) as (_ & A & M).
      destruct (bg_smart w l (tui s)) as [[st ts] asked]. cbn in *.
      split; [|now left]. destruct M as [M|M]; [now left|right; right].
      split; [exact M|]. now exists i, l.
Qed.

End Invariants.

(** ** How the operations compose *)

Section Behaviour.

Import MusicTUI.



(** [skip_prev] with the cursor at the start only writes the status
    message and starts nothing; otherwise it moves the cursor back by one
    and plays the entry there. *)
Theorem skip_prev_effect (st : MusicTUI) :
  ((selected_index st <= 0)%Z ->
   skip_prev st = (set_status_message "Start of playlist." st, [])) /\
  (forall l,
     (0 < selected_index st)%Z ->
     results st !! Z.to_nat (selected_index st - 1) = Some l ->
     (skip_prev st).2 = [BgPlay l] /\
     selected_index (skip_prev st).1 = (selected_index st - 1)%Z /\
     same_but_cursor st (skip_prev st).1).
Proof.
  unfold skip_prev. split.
  - intros H. destruct (Z.ltb_spec 0 (selected_index st)); [lia|reflexivity].
  - intros l H Hl. destruct (Z.ltb_spec 0 (selected_index st)); [|lia].
    rewrite (play_selection_on_entry _ l); [|cbn; lia|exact Hl].
    cbn. unfold same_but_cursor. cbn. auto 10.
Qed.

Lemma idle_step (w : world) (ev : happening) (s : system) :
  process (player (tui s)) = None -> idle_happening ev = true ->
  threads (sys_step w ev s) = threads s /\
  process (player (tui (sys_step w ev s))) = None /\
  results (tui (sys_step w ev s)) = results (tui s) /\
  mode (tui (sys_step w ev s)) = mode (tui s).
Proof.
  intros Hp Hev. unfold sys_step. destruct (negb (looping s)); [auto|].
  destruct ev as [k| |i]; [| |discriminate].
  - unfold loop_turn, AudioPlayer.check_status. rewrite Hp. cbn [andb].
    destruct k; try discriminate; cbn [on_key fst snd app];
      rewrite ?app_nil_r; fields; auto.
    + destruct (0 <? _)%Z; fields; auto.
    + destruct (_ <? _)%Z; fields; auto.
    + unfold AudioPlayer.toggle_pause.
      destruct (is_playing (player (tui s))); fields; auto.
  - cbn. unfold AudioPlayer.child_exits. rewrite Hp. auto.
Qed.

(** With no process handle held, turns of the loop on keys that ask for no
    track and exits of a child start no thread, leave the list and the
    mode alone and leave the player without a handle: once stopped, the
    program plays nothing by itself. *)
Theorem idle_stays_idle (s : system) (evs : list (world * happening)) :
  process (player (tui s)) = None ->
  forallb (fun e => idle_happening e.2) evs = true ->
  threads (sys_run s evs) = threads s /\
  process (player (tui (sys_run s evs))) = None /\
  results (tui (sys_run s evs)) = results (tui s) /\
  mode (tui (sys_run s evs)) = mode (tui s).
Proof.
  revert s. induction evs as [|[w ev] evs IH]; intros s Hp Hevs; [auto|].
  cbn in Hevs. apply andb_prop in Hevs as [Hev Hevs].
  destruct (idle_step w ev s Hp Hev) as (T & P & R & M).
  destruct (IH (sys_step w ev s) P Hevs) as (T' & P' & R' & M').
  cbn [sys_run]. repeat split; congruence.
Qed.

Lemma idle_stays_idle_witness :
  let s := sys_run boot
             [(Demo.w, Turn (KeySearch (Some "Daft Punk")));
              (Demo.w, Turn KeyEnter);
              (Demo.w, Scheduled 0);
              (Demo.w, Turn KeyStop)] in
  let evs := [(Demo.w, ChildExit); (Demo.w, Turn KeyErr);
              (Demo.w, Turn KeyDown); (Demo.w, Turn KeySpace);
              (Demo.w, Turn KeyErr)] in
  threads (sys_run s evs) = [] /\
  process (player (tui (sys_run s evs))) = None.
Proof.
  cbv zeta.
  match goal with
  | |- threads (sys_run ?s ?evs) = _ /\ _ =>
      destruct (idle_stays_idle s evs) as (T & P & _); [reflexivity|reflexivity|]
  end.
  split; [exact T|exact P].
Defined.







Lemma bg_play_stages (w : world) (selected : loc) (st : MusicTUI) :
  bg_play w selected st
  = let '(url, st) := resolve_stage w selected st in
    if truthy url then
      let st := set_loading false st in
      let st :=
        set_player (AudioPlayer.play w (default "" url) selected (player st))
          st in
      if negb (is_playing (player st)) && autoplay st
      then handle_smart_navigation (Some selected)
             (set_status_message "Playback failed. Skipping..." st)
      else (st, [])
    else
      let st :=
        set_status_message "Song Unavailable. Skipping..."
          (set_loading false st) in
      if autoplay st
      then handle_smart_navigation (Some selected) st
      else (st, []).
Proof. reflexivity. Qed.

Lemma extract_video_id_truthy (url id : string) :
  extract_video_id url = Some id -> truthy (Some id) = true.
Proof.
  unfold extract_video_id. intros H.
  assert (String.length id = 11%nat) as Hl.
  { destruct (search_id "v=" url) as [r|] eqn:E.
    - injection H as <-. now destruct (search_id_some _ _ _ E).
    - now destruct (search_id_some _ _ _ H). }
  destruct id; [discriminate|reflexivity].
Qed.

Lemma resolve_stage_spec (w : world) (selected : loc) (st : MusicTUI) :
  (resolve_stage w selected st).1 = play_url w (deref (heap st) selected) /\
  same_but_status (set_heap (heap (resolve_stage w selected st).2) st)
    (resolve_stage w selected st).2 /\
  heap (resolve_stage w selected st).2
  = match video_id (deref (heap st) selected),
          extract_video_id
            (default "" (play_url w (deref (heap st) selected))) with
    | None, Some vid_id =>
        if truthy (play_url w (deref (heap st) selected))
        then <[selected := Song (track (deref (heap st) selected))
                             (artist (deref (heap st) selected))
                             (Some vid_id)]> (heap st)
        else heap st
    | _, _ => heap st
    end.
Proof.
  unfold resolve_stage, play_url, same_but_status.
  destruct (video_id (deref (heap st) selected)) as [vid|];
    [fields; repeat split; reflexivity|].
  destruct (truthy (get_youtube_url w _)) eqn:Et.
  - destruct (extract_video_id _) as [vid_id|] eqn:Ex;
      [|fields; repeat split; reflexivity].
    rewrite (extract_video_id_truthy _ _ Ex).
    unfold attach_video_id. fields. repeat split; reflexivity.
  - fields. repeat split; try reflexivity. now destruct (extract_video_id _).
Qed.

(** With autoplay off nothing is started without a key: a turn of the
    loop without a key and a run of [_bg] start no thread and leave the
    cursor, the list and the mode alone. *)
Theorem autoplay_off_starts_nothing (w : world) (selected : loc)
  (st : MusicTUI) :
  autoplay st = false ->
  ((loop_turn w KeyErr st).1.2 = [] /\
   selected_index (loop_turn w KeyErr st).1.1 = selected_index st /\
   results (loop_turn w KeyErr st).1.1 = results st /\
   mode (loop_turn w KeyErr st).1.1 = mode st) /\
  ((bg_play w selected st).2 = [] /\
   selected_index (bg_play w selected st).1 = selected_index st /\
   results (bg_play w selected st).1 = results st /\
   mode (bg_play w selected st).1 = mode st).
Proof.
  intros Ha. split.
  - unfold loop_turn.
    destruct (AudioPlayer.check_status (player st)) as [p ended]. fields.
    rewrite Ha, andb_false_r. cbn. auto.
  - rewrite bg_play_stages.
    destruct (resolve_stage_spec w selected st) as (_ & F & _).
    destruct (resolve_stage w selected st) as [url st1].
    destruct F as (_ & _ & R & C & M & A & _). fields.
    destruct (truthy url); fields; rewrite A, Ha, ?andb_false_r; fields; auto.
Qed.

Lemma autoplay_off_starts_nothing_witness :
  let st := set_autoplay false
              (Demo.showing [Song "One More Time" "Daft Punk" None] 0) in
  (bg_play Demo.dead 0 st).2 = [] /\
  selected_index (bg_play Demo.dead 0 st).1 = 0%Z.
Proof.
  cbv zeta.
  destruct (autoplay_off_starts_nothing Demo.dead 0
              (set_autoplay false
                 (Demo.showing [Song "One More Time" "Daft Punk" None] 0)))
    as (_ & T & C & _); [reflexivity|].
  split; [exact T|exact C].
Defined.

(** Once [_bg] has resolved a track whose locator shows an identifier,
    the track carries that identifier in the store, and playing it again
    builds the locator from it without asking yt-dlp. *)
Theorem bg_play_remembers_id (w w' : world) (selected : loc)
  (st : MusicTUI) (vid_id : string) :
  let s := deref (heap st) selected in
  (selected < length (heap st))%nat ->
  video_id s = None ->
  truthy (play_url w s) = true ->
  extract_video_id (default "" (play_url w s)) = Some vid_id ->
  deref (heap (bg_play w selected st).1) selected
  = Song (track s) (artist s) (Some vid_id) /\
  (forall l, l <> selected ->
     deref (heap (bg_play w selected st).1) l = deref (heap st) l) /\
  play_url w' (deref (heap (bg_play w selected st).1) selected)
  = Some ("https://www.youtube.com/watch?v=" +:+ vid_id).
Proof.
  cbv zeta. intros Hl Hv Hu Hx.
  assert (heap (bg_play w selected st).1
          = <[selected := Song (track (deref (heap st) selected))
                               (artist (deref (heap st) selected))
                               (Some vid_id)]> (heap st)) as ->.
  { rewrite bg_play_stages.
    destruct (resolve_stage_spec w selected st) as (U & F & H).
    destruct (resolve_stage w selected st) as [url st1].
    cbn [fst snd] in U, F, H. subst url.
    rewrite Hv, Hx, Hu in H. rewrite Hu. fields.
    match goal with
    | |- context [if ?b then handle_smart_navigation _ _ else _] =>
        destruct b
    end.
    - match goal with
      | |- context [handle_smart_navigation ?o ?s] =>
          destruct (handle_smart_navigation_frame o s) as (_ & F2 & _)
      end.
      rewrite F2. fields. exact H.
    - fields. exact H. }
  unfold deref. split; [|split].
  - now rewrite list_lookup_insert_eq.
  - intros l Hne. now rewrite list_lookup_insert_ne.
  - unfold play_url. now rewrite list_lookup_insert_eq.
Qed.

Lemma bg_play_remembers_id_witness :
  let st := Demo.showing [Song "One More Time" "Daft Punk" None] 0 in
  deref (heap (bg_play Demo.w 0 st).1) 0
  = Song "One More Time" "Daft Punk" (Some "AAAAAAAAAAA").
Proof.
  cbv zeta.
  destruct (bg_play_remembers_id Demo.w Demo.w 0
              (Demo.showing [Song "One More Time" "Daft Punk" None] 0)
              "AAAAAAAAAAA") as (H & _);
    [cbn; lia|reflexivity|reflexivity|reflexivity|exact H].
Defined.

End Behaviour.

(** ** The search prompt *)

Section PromptProps.

Import Prompt.

Lemma on_getch_printable (buffer : list ascii) (c : ascii) :
  printable c = true -> on_getch buffer (ord c) = Typing (buffer ++ [c]).
Proof.
  unfold printable, on_getch, KEY_BACKSPACE. intros H.
  apply andb_prop in H as [H1 H2].
  apply Z.leb_le in H1. apply Z.leb_le in H2.
  repeat match goal with
         | |- context [(?a =? ?b)%Z] =>
             destruct (Z.eqb_spec a b); [lia|]
         end.
  cbn [orb]. destruct (Z.leb_spec 32 (ord c)); [|lia].
  destruct (Z.leb_spec (ord c) 126); [|lia]. cbn [andb].
  unfold ord. now rewrite Nat2Z.id, ascii_nat_embedding.
Qed.

Lemma custom_input_from_text (l : list ascii) : forall buffer keys,
  forallb printable l = true ->
  custom_input_from buffer (map ord l ++ keys)
  = custom_input_from (buffer ++ l) keys.
Proof.
  induction l as [|c l IH]; intros buffer keys H.
  - now rewrite app_nil_r.
  - cbn in H. apply andb_prop in H as [Hc Hl].
    cbn [map app custom_input_from]. rewrite on_getch_printable by exact Hc.
    rewrite IH by exact Hl. now rewrite <- app_assoc.
Qed.

(** Typing a text of printable characters and then Enter makes
    [custom_input] return that text. *)
Theorem custom_input_returns_typed (text : string) (enter : Z) :
  forallb printable (list_ascii_of_string text) = true ->
  enter = 10%Z \/ enter = 13%Z ->
  custom_input (map ord (list_ascii_of_string text) ++ [enter])
  = Entered text.
Proof.
  intros H He. unfold custom_input. rewrite custom_input_from_text by exact H.
  cbn [app custom_input_from].
  assert (on_getch (list_ascii_of_string text) enter
          = Entered (string_of_list_ascii (list_ascii_of_string text))) as ->
      by (destruct He as [-> | ->]; reflexivity).
  now rewrite string_of_list_ascii_of_string.
Qed.

Lemma custom_input_returns_typed_witness :
  custom_input [68; 97; 102; 116; 32; 80; 117; 110; 107; 10]%Z
  = Entered "Daft Punk".
Proof.
  apply (custom_input_returns_typed "Daft Punk" 10); [reflexivity|now left].
Defined.

(** A backspace takes back the character typed before it, and is
    ignored on an empty buffer. *)
Theorem custom_input_backspace (buffer : list ascii) (c : ascii)
  (back : Z) (keys : list Z) :
  printable c = true ->
  back = KEY_BACKSPACE \/ back = 127%Z ->
  custom_input_from buffer (ord c :: back :: keys)
  = custom_input_from buffer keys /\
  custom_input_from [] (back :: keys) = custom_input_from [] keys.
Proof.
  intros Hc Hb.
  assert (forall b, on_getch b back
                    = Typing (match b with [] => b | _ :: _ => removelast b end))
    as Hback.
  { intros b. destruct Hb as [-> | ->]; reflexivity. }
  split.
  - cbn [custom_input_from]. rewrite on_getch_printable by exact Hc.
    rewrite Hback.
    destruct (buffer ++ [c]) eqn:E; [now destruct buffer|].
    rewrite <- E. now rewrite removelast_last.
  - cbn [custom_input_from]. now rewrite Hback.
Qed.

Lemma custom_input_backspace_witness :
  custom_input_from ["a"%char] [98; 127; 99; 10]%Z = Entered "ac".
Proof.
  destruct (custom_input_backspace ["a"%char] "b"%char 127 [99; 10]%Z)
    as [H _]; [reflexivity|now right|].
  etransitivity; [exact H|reflexivity].
Defined.

Lemma on_getch_keeps_printable (buffer : list ascii) (key : Z) :
  forallb printable buffer = true ->
  match on_getch buffer key with
  | Typing b => forallb printable b = true
  | Entered t => forallb printable (list_ascii_of_string t) = true
  | Escaped => True
  end.
Proof.
  intros H. unfold on_getch.
  destruct (_ || _)%bool.
  { now rewrite list_ascii_of_string_of_list_ascii. }
  destruct (key =? 27)%Z; [exact I|].
  destruct (_ || _)%bool.
  { destruct buffer as [|a b] eqn:E; [reflexivity|]. rewrite <- E in *.
    clear E. induction buffer as [|x [|y r] IH]; [reflexivity|reflexivity|].
    cbn [forallb] in H. apply andb_prop in H as [Hx Hr].
    change (removelast (x :: y :: r)) with (x :: removelast (y :: r)).
    cbn [forallb]. now rewrite Hx, IH. }
  destruct (_ && _)%bool eqn:E; [|exact H].
  rewrite forallb_app, H. cbn [forallb]. rewrite andb_true_r.
  apply andb_prop in E as [E1 E2].
  apply Z.leb_le in E1. apply Z.leb_le in E2.
  unfold printable, ord. rewrite nat_ascii_embedding by lia.
  rewrite Z2Nat.id by lia.
  cbn [andb]. apply andb_true_intro. split; apply Z.leb_le; lia.
Qed.

Lemma custom_input_from_printable (keys : list Z) : forall buffer text,
  forallb printable buffer = true ->
  custom_input_from buffer keys = Entered text ->
  forallb printable (list_ascii_of_string text) = true.
Proof.
  induction keys as [|key keys IH]; intros buffer text Hb H; [discriminate|].
  cbn [custom_input_from] in H.
  pose proof (on_getch_keeps_printable buffer key Hb) as Hk.
  destruct (on_getch buffer key) as [b|t|]; [eauto| |discriminate].
  now injection H as <-.
Qed.

(** Whatever keys arrive, a text returned by [custom_input] holds
    printable characters only. *)
Theorem custom_input_printable (keys : list Z) (text : string) :
  custom_input keys = Entered text ->
  forallb printable (list_ascii_of_string text) = true.
Proof. intros H. now apply (custom_input_from_printable keys [] text). Qed.

Lemma custom_input_printable_witness :
  forallb printable (list_ascii_of_string "ac") = true.
Proof.
  apply (custom_input_printable [97; 7; 300; 98; 263; -1; 99; 13]%Z "ac").
  reflexivity.
Defined.

End PromptProps.

(** ** The screen *)

Section ScreenProps.

Import Screen.

Lemma take_chars_length (n : nat) : forall s,
  String.length (take_chars n s) = Nat.min n (String.length s).
Proof.
  induction n as [|n IH]; intros [|c s]; cbn; auto.
Qed.

Lemma take_chars_prefix (n : nat) : forall s,
  Py.startswith (take_chars n s) s = true.
Proof.
  induction n as [|n IH]; intros [|c s]; cbn; auto.
  now rewrite Ascii.eqb_refl.
Qed.

Lemma startswith_refl s : Py.startswith s s = true.
Proof. induction s as [|c s IH]; cbn; [|rewrite Ascii.eqb_refl]; auto. Qed.

(** [safe_addstr] writes nothing outside the terminal: it draws only at a
    row and column of the screen, what it draws begins the text asked for,
    ends before the last column, and is the whole text when that fits. *)
Theorem safe_addstr_clips (h w y x : Z) (text : string) :
  match safe_addstr h w y x text with
  | None => (h <= y \/ w <= x)%Z
  | Some (y', x', drawn) =>
      y' = y /\ x' = x /\ (y < h)%Z /\ (x < w)%Z /\
      (x + Z.of_nat (String.length drawn) <= w - 1)%Z /\
      Py.startswith drawn text = true /\
      ((x + Z.of_nat (String.length text) <= w - 1)%Z -> drawn = text)
  end.
Proof.
  unfold safe_addstr.
  destruct (Z.leb_spec h y); cbn [orb]; [lia|].
  destruct (Z.leb_spec w x); [lia|].
  destruct (Z.ltb_spec (w - x - 1) (Z.of_nat (String.length text))).
  - unfold upto. destruct (Z.leb_spec 0 (w - x - 1)); [|lia].
    rewrite take_chars_length, take_chars_prefix.
    repeat split; try lia.
  - rewrite startswith_refl. repeat split; lia.
Qed.

(** The rows of the list drawn on a terminal of [h] rows: every row drawn
    shows an entry of the list and lies between the header and the status
    bar, and an entry under the cursor is among them. *)
Theorem list_rows_show_cursor (h cursor : Z) (n : nat) :
  (forall row idx, In (row, idx) (list_rows h cursor n) ->
     (0 <= idx < Z.of_nat n)%Z /\ (3 <= row < h - 2)%Z) /\
  ((0 <= cursor < Z.of_nat n)%Z -> (5 < h)%Z ->
   exists row, In (row, cursor) (list_rows h cursor n)).
Proof.
  unfold list_rows. split.
  - intros row idx H. destruct (Z.ltb_spec 0 (h - 5)); [|destruct H].
    apply in_map_iff in H as (i & [= <- <-] & Hi).
    apply in_seq in Hi. lia.
  - intros Hc Hh. destruct (Z.ltb_spec 0 (h - 5)); [|lia].
    set (start := Z.max 0 (cursor - (h - 5) / 2)).
    assert (0 <= (h - 5) / 2 < h - 5)%Z as Hhalf.
    { split; [apply Z.div_pos; lia|apply Z.div_lt; lia]. }
    exists (cursor - start + 3)%Z. apply in_map_iff.
    exists (Z.to_nat (cursor - start)). split.
    + f_equal; lia.
    + apply in_seq. lia.
Qed.

End ScreenProps.

(** ** The resolver and the pause key *)

Section Resolver.

Lemma rstrip_blank s :
  forallb Py.isspace (list_ascii_of_string s) = true -> Py.rstrip s = "".
Proof.
  induction s as [|c s IH]; [reflexivity|]. cbn [list_ascii_of_string forallb].
  intros H. apply andb_prop in H as [Hc Hs].
  cbn [Py.rstrip]. now rewrite IH, Hc.
Qed.

(** [get_youtube_url] hands back yt-dlp's answer without blanks around it:
    trimming it again changes nothing, an answer of blanks only comes back
    as the empty text, which [_bg] takes for no locator, and a failing
    yt-dlp gives [None]. *)
Theorem get_youtube_url_trimmed (w : world) (query : string) :
  (forall url, get_youtube_url w query = Some url -> Py.strip url = url) /\
  (forall output,
     ytdlp_search w ("ytsearch1:" +:+ query +:+ " audio") = Some output ->
     forallb Py.isspace (list_ascii_of_string output) = true ->
     get_youtube_url w query = Some "" /\
     MusicTUI.truthy (get_youtube_url w query) = false) /\
  (ytdlp_search w ("ytsearch1:" +:+ query +:+ " audio") = None ->
   get_youtube_url w query = None).
Proof.
  unfold get_youtube_url.
  destruct (ytdlp_search w _) as [output|]; split; [| |discriminate|].
  - intros url [= <-]. apply strip_idem.
  - split; [|discriminate]. intros o [= <-] H.
    unfold Py.strip. now rewrite rstrip_blank.
  - split; [discriminate|reflexivity].
Qed.

(** Pressing the pause key twice brings the player back as it was; while
    nothing plays the key does nothing at all, and it never touches the
    process handle or the current track. *)
Theorem toggle_pause_twice (p : AudioPlayer) :
  AudioPlayer.toggle_pause (AudioPlayer.toggle_pause p) = p /\
  (is_playing p = false -> AudioPlayer.toggle_pause p = p) /\
  process (AudioPlayer.toggle_pause p) = process p /\
  current_song (AudioPlayer.toggle_pause p) = current_song p.
Proof.
  unfold AudioPlayer.toggle_pause. destruct p as [pr cs ip ipa ms]. cbn.
  destruct ip; cbn; [rewrite negb_involutive|];
    (split; [reflexivity|split; [|split; reflexivity]]);
    [discriminate|reflexivity].
Qed.

End Resolver.

(** ** Start radio *)

Section StartRadio.

Import MusicTUI.

(** What a status message that starts with ["Fetching: "] is not. *)
Lemma fetching_is_no_failure (t : string) :
  "Fetching: " +:+ t <> "Could not generate radio.".
Proof. rewrite !append_cons. discriminate. Qed.

(** The first stage, when the recommendation fetch answers. *)
Lemma smart_by_id_found (w : world) (prev_song : loc) (st : MusicTUI)
  (v : string) :
  video_id (deref (heap st) prev_song) = Some v ->
  fetch_youtube_mix w v <> [] ->
  exists st1,
    smart_by_id w prev_song st = (st1, true, [AskedMix v]) /\
    shown st1 = fetch_youtube_mix w v /\ mode st1 = RADIO /\
    selected_index st1 = 0%Z /\
    results st1 !! 0%nat = Some (length (heap st)).
Proof.
  intros Hv Hmix. unfold smart_by_id. rewrite Hv.
  destruct (fetch_youtube_mix w v) as [|x mix] eqn:Em; [congruence|].
  eexists. split; [reflexivity|].
  split; [apply (shown_assign_results (x :: mix))|].
  repeat split.
Qed.

(** The first stage, when it is skipped or comes back empty. *)
Lemma smart_by_id_nothing (w : world) (prev_song : loc) (st : MusicTUI) :
  (forall v, video_id (deref (heap st) prev_song) = Some v ->
             fetch_youtube_mix w v = []) ->
  exists st1 asked1,
    smart_by_id w prev_song st = (st1, false, asked1) /\
    same_but_status st st1 /\
    asked1 = match video_id (deref (heap st) prev_song) with
             | Some v => [AskedMix v]
             | None => []
             end.
Proof.
  intros Hno. unfold smart_by_id.
  destruct (video_id (deref (heap st) prev_song)) as [v|].
  - rewrite (Hno v eq_refl). eexists _, _. split; [reflexivity|].
    split; [|reflexivity]. unfold same_but_status. fields. auto 10.
  - eexists _, _. split; [reflexivity|]. split; [|reflexivity].
    unfold same_but_status. auto 10.
Qed.

(** The second stage, when the artist search answers. *)
Lemma smart_by_artist_found (w : world) (prev_song : loc) (st : MusicTUI) :
  let query := clean_artist_name (artist (deref (heap st) prev_song)) in
  (fetch_itunes_results w query).1 <> [] ->
  exists st2,
    smart_by_artist w prev_song st = (st2, true, [AskedArtist query]) /\
    shown st2 = (fetch_itunes_results w query).1 /\ mode st2 = RADIO /\
    (0 <= selected_index st2 < Z.of_nat (length (results st2)))%Z.
Proof.
  cbv zeta. intros Hres. unfold smart_by_artist.
  destruct (fetch_itunes_results w _) as [[|x res] err]; [now elim Hres|].
  cbn [fst] in *. set (new := x :: res).
  set (st1 := set_status_message _ st).
  pose proof (shown_assign_results new st1) as Hs.
  pose proof (length_assign_results new st1) as Hlen.
  eexists. split; [reflexivity|]. split; [exact Hs|]. split; [reflexivity|].
  fields.
  match goal with
  | |- context [pick_next_idx ?t ?l] =>
      assert (l = new) as -> by exact Hs;
      pose proof (pick_next_idx_in_range t new ltac:(discriminate)) as Hp
  end.
  rewrite Hlen. exact Hp.
Qed.

(** The second stage, when the artist search finds nothing. *)
Lemma smart_by_artist_nothing (w : world) (prev_song : loc) (st : MusicTUI) :
  let query := clean_artist_name (artist (deref (heap st) prev_song)) in
  (fetch_itunes_results w query).1 = [] ->
  exists st2,
    smart_by_artist w prev_song st = (st2, false, [AskedArtist query]) /\
    same_but_status st st2.
Proof.
  cbv zeta. intros Hres. unfold smart_by_artist.
  destruct (fetch_itunes_results w _) as [[|x res] err]; [|discriminate].
  eexists. split; [reflexivity|]. unfold same_but_status. fields. auto 10.
Qed.

(** Playing what the radio found. *)
Lemma play_found (st : MusicTUI) :
  (0 <= selected_index st < Z.of_nat (length (results st)))%Z ->
  exists l,
    results st !! Z.to_nat (selected_index st) = Some l /\
    play_selection None (set_loading false st)
    = (set_status_message
         ("Fetching: " +:+ track (deref (heap st) l) +:+ "...")
         (set_loading true (set_loading false st)),
       [BgPlay l]).
Proof.
  intros Hc.
  destruct (lookup_lt_is_Some_2 (results st) (Z.to_nat (selected_index st)))
    as [l Hl]; [lia|].
  exists l. split; [exact Hl|].
  now rewrite (play_selection_on_entry (set_loading false st) l);
    [|fields; lia|exact Hl].
Qed.

(** C3. The sources of [start_smart_radio], in order.  With a resolved
    identifier the recommendation fetch is asked first; a non-empty
    answer becomes the list, in RADIO mode with the cursor at 0, its
    first entry is played and the artist search is not asked.  The
    artist search is asked exactly when the identifier is missing or the
    fetch came back empty; a non-empty answer of it becomes the list, in
    RADIO mode, and the entry under the cursor is played.  When both yield
    nothing the failure is reported, no thread is started and the player,
    the list, the cursor and the mode stay as they were; and the failure
    is reported in that case only. *)
Theorem smart_radio_order (w : world) (prev_song : loc) (st : MusicTUI) :
  let seed := deref (heap st) prev_song in
  let query := clean_artist_name (artist seed) in
  let found := (fetch_itunes_results w query).1 in
  let no_mix :=
    forall v, video_id seed = Some v -> fetch_youtube_mix w v = [] in
  let st' := (bg_smart w prev_song st).1.1 in
  let started := (bg_smart w prev_song st).1.2 in
  let asked := (bg_smart w prev_song st).2 in
  (forall v, video_id seed = Some v -> fetch_youtube_mix w v <> [] ->
     asked = [AskedMix v] /\ shown st' = fetch_youtube_mix w v /\
     mode st' = RADIO /\ selected_index st' = 0%Z /\
     exists l, results st' !! 0%nat = Some l /\ started = [BgPlay l]) /\
  (forall v, video_id seed = Some v -> fetch_youtube_mix w v = [] ->
     asked = [AskedMix v; AskedArtist query]) /\
  (video_id seed = None -> asked = [AskedArtist query]) /\
  (no_mix -> found = [] ->
     started = [] /\ status_message st' = "Could not generate radio." /\
     loading st' = false /\ player st' = player st /\
     results st' = results st /\ selected_index st' = selected_index st /\
     mode st' = mode st) /\
  (no_mix -> found <> [] ->
     shown st' = found /\ mode st' = RADIO /\
     (0 <= selected_index st')%Z /\
     exists l, results st' !! Z.to_nat (selected_index st') = Some l /\
               started = [BgPlay l]) /\
  (status_message st' = "Could not generate radio." ->
     no_mix /\ found = [] /\ started = []).
Proof.
  cbv zeta. unfold bg_smart.
  (* the recommendation fetch answers, or not *)
  assert ((exists v, video_id (deref (heap st) prev_song) = Some v /\
                     fetch_youtube_mix w v <> []) \/
          (forall v, video_id (deref (heap st) prev_song) = Some v ->
                     fetch_youtube_mix w v = [])) as [(v & Hv & Hmix)|Hno].
  { destruct (video_id (deref (heap st) prev_song)) as [v|];
      [|right; discriminate].
    destruct (fetch_youtube_mix w v) as [|x mix] eqn:E.
    - right. now intros v' [= <-].
    - left. exists v. split; [reflexivity|]. rewrite E. discriminate. }
  - destruct (smart_by_id_found w prev_song st v Hv Hmix)
      as (st1 & -> & Hs & Hm & Hc & H0).
    cbn [negb].
    destruct (play_found st1) as (l & Hl & ->).
    { rewrite Hc. apply lookup_lt_Some in H0. lia. }
    rewrite Hc in Hl. cbn [Z.to_nat] in Hl. cbn [fst snd app]. fields.
    split; [|split; [|split; [|split; [|split]]]].
    + intros v' Hv' _. assert (v' = v) as -> by congruence.
      repeat split; auto. exists l. auto.
    + intros v' Hv' Hempty. assert (v' = v) as -> by congruence.
      now elim Hmix.
    + congruence.
    + intros Hno. now elim Hmix; apply Hno.
    + intros Hno. now elim Hmix; apply Hno.
    + intros Hmsg. now apply fetching_is_no_failure in Hmsg.
  - destruct (smart_by_id_nothing w prev_song st Hno)
      as (st1 & asked1 & -> & F1 & ->).
    cbn [negb].
    assert (deref (heap st1) prev_song = deref (heap st) prev_song) as Hd
        by (destruct F1 as (_ & -> & _); reflexivity).
    destruct (fetch_itunes_results w
                (clean_artist_name (artist (deref (heap st) prev_song)))).1
      as [|x res] eqn:Ef.
    + destruct (smart_by_artist_nothing w prev_song st1)
        as (st2 & -> & F2); [now rewrite Hd|].
      rewrite Hd. destruct F1 as (P1 & _ & R1 & C1 & M1 & _).
      destruct F2 as (P2 & _ & R2 & C2 & M2 & _).
      cbn [fst snd]. fields.
      split; [|split; [|split; [|split; [|split]]]].
      * intros v Hv Hmix. now elim Hmix; apply Hno.
      * intros v Hv _. now rewrite Hv.
      * intros Hv. now rewrite Hv.
      * intros _ _. repeat split; congruence.
      * intros _ Hne. now elim Hne.
      * intros _. repeat split. exact Hno.
    + destruct (smart_by_artist_found w prev_song st1)
        as (st2 & -> & Hs & Hm & Hc); [rewrite Hd, Ef; discriminate|].
      rewrite Hd in *. rewrite Ef in Hs.
      destruct (play_found st2 Hc) as (l & Hl & ->).
      cbn [fst snd]. fields.
      split; [|split; [|split; [|split; [|split]]]].
      * intros v Hv Hmix. now elim Hmix; apply Hno.
      * intros v Hv _. now rewrite Hv.
      * intros Hv. now rewrite Hv.
      * discriminate.
      * intros _ _. repeat split; auto; try lia. exists l. auto.
      * intros Hmsg. now apply fetching_is_no_failure in Hmsg.
Qed.

End StartRadio.
